(** * Wine Launcher Creator: icon selection, icon theme tree and shell quoting

    A shallow embedding of the icon pipeline and of the command composer of
    [wlcreator.py], with the properties its specification states about them.

    Modelling conventions.
    - A Python [str] is the list of its code points ([N]); [bytes] is the
      list of its byte values.  String literals of the source are written
      with [lit]; the double quote is code point 34.
    - A Python [int] is a [Z].
    - An icon image is the tuple [(index, width, height, bit-depth)] of the
      source, read through [INDEX], [WIDTH], [HEIGHT] and [BIT_DEPTH].
    - External programs ([icotool], [xdg-icon-resource]) and the file system
      are reached through an oracle that answers every call from the history
      of the calls made so far; code using them lives in a state and
      exception monad over that history.
    - The Unicode tables of the interpreter ([str.upper], [str.lower],
      [str.isalnum] outside ASCII, [unicodedata]), [int()] on bytes and the
      home directory are parameters.
    - A Python [float] is a binary64 number of IEEE 754, with the rounding
      of every operation; the functions of the C library that [**] and
      [abs] call, whose last bit IEEE 754 leaves open, are parameters. *)

From Stdlib Require Import ZArith NArith List Bool Lia.
From Stdlib Require Import Strings.String Strings.Ascii.
From Stdlib Require Import Numbers.DecimalString Numbers.DecimalPos Numbers.DecimalZ.
From Stdlib Require Import Sorting.Sorted Sorting.Permutation.
From Stdlib Require Import Floats.SpecFloat.
From stdpp Require Import gmap.
Import ListNotations.
Open Scope Z_scope.
Set Default Proof Using "Type".

(** ** Python values *)

Definition char := N.
Definition str := list char.
Definition bytes := list N.

(** An ASCII literal of the source as a [str]. *)
Definition lit (s : string) : str := map N_of_ascii (list_ascii_of_string s).

Definition c_tab : char := 9%N.
Definition c_nl : char := 10%N.
Definition c_dquote : char := 34%N.
Definition c_squote : char := 39%N.
Definition c_backslash : char := 92%N.

Module Py.

(** [c in s] for a one-character [c]. *)
Definition char_in (c : char) (s : str) : bool := existsb (N.eqb c) s.

Definition str_eqb (a b : str) : bool := bool_decide (a = b).

(** Truth value of a string: non-empty. *)
Definition truthy (s : str) : bool :=
  match s with [] => false | _ => true end.

(** [a or b] on strings. *)
Definition or_ (a b : str) : str := if truthy a then a else b.

(** [str(n)] and the [{}] format of an [int]. *)
Definition str_of_int (n : Z) : str := lit (NilZero.string_of_int (Z.to_int n)).

(** [s[-n:]] for [n > 0]. *)
Definition last_n (n : nat) (s : str) : str := skipn (length s - n) s.

(** [s[:-n]] for [n > 0]. *)
Definition drop_last_n (n : nat) (s : str) : str := firstn (length s - n) s.

Definition startswith (p s : str) : bool := str_eqb (firstn (length p) s) p.

Definition endswith (p s : str) : bool := str_eqb (last_n (length p) s) p.

(** [s.rstrip(c)] for a one-character [c]. *)
Fixpoint rstrip (c : char) (s : str) : str :=
  match s with
  | [] => []
  | x :: r =>
      match rstrip c r with
      | [] => if N.eqb x c then [] else [x]
      | r' => x :: r'
      end
  end.

(** [s.split(sep)] for a one-byte separator: never the empty list. *)
Fixpoint split (sep : N) (s : bytes) : list bytes :=
  match s with
  | [] => [[]]
  | x :: r =>
      if N.eqb x sep then [] :: split sep r
      else match split sep r with
           | [] => [[x]]
           | l :: ls => (x :: l) :: ls
           end
  end.

End Py.

(** ** Shell quoting: [escape] *)

(** The characters of ['\t\n] preceded by the single quote. *)
Definition sq_illegal : str := [c_squote; c_tab; c_nl].

(** The characters of the second membership test of [escape]. *)
Definition reserved : str := c_dquote :: lit "\ ><~|&;$*?#()`=".

(** The [for c in text] loop of [escape], as one step on the two flags
    [(hasSQIllegal, hasReserved)]. *)
Definition escape_scan_step (flags : bool * bool) (c : char) : bool * bool :=
  let '(hasSQIllegal, hasReserved) := flags in
  if Py.char_in c sq_illegal then (true, hasReserved)
  else if Py.char_in c reserved then (hasSQIllegal, true)
  else (hasSQIllegal, hasReserved).

Definition escape_scan (text : str) : bool * bool :=
  fold_left escape_scan_step text (false, false).

(** The character class of the pattern given to [re.sub]: double quote,
    backtick, dollar, backslash, tab and newline. *)
Definition dq_class : str := c_dquote :: lit "`$\" ++ [c_tab; c_nl].

(** The [re.sub] call of [escape]: its pattern is one group holding the
    class above and its replacement is a backslash followed by the group, so
    every character of the class is replaced by a backslash and itself. *)
Definition re_sub_backslash (text : str) : str :=
  flat_map (fun c => if Py.char_in c dq_class then [c_backslash; c] else [c]) text.

(** [.translate(str.maketrans({'\n': 'n', '\t': 't'}))]. *)
Definition translate_nt (text : str) : str :=
  map (fun c => if N.eqb c c_nl then 110%N else if N.eqb c c_tab then 116%N else c) text.

Definition escape (text : str) (allowSingleQuote : bool) : str :=
  let '(hasSQIllegal, hasReserved) := escape_scan text in
  if allowSingleQuote && negb hasSQIllegal && hasReserved then
    [c_squote] ++ text ++ [c_squote]
  else if hasSQIllegal || hasReserved then
    [c_dquote] ++ translate_nt (re_sub_backslash text) ++ [c_dquote]
  else text.

(** ** Paths: the functions of [posixpath] the program calls *)

Module PosixPath.

Definition sep : char := 47%N.

(** [p[p.rfind('/') + 1:]]. *)
Fixpoint basename (p : str) : str :=
  match p with
  | [] => []
  | x :: r =>
      if Py.char_in sep r then basename r
      else if N.eqb x sep then r else x :: r
  end.

(** [p[:p.rfind('/') + 1]]. *)
Fixpoint head_of (p : str) : str :=
  match p with
  | [] => []
  | x :: r =>
      if Py.char_in sep r then x :: head_of r
      else if N.eqb x sep then [x] else []
  end.

Definition dirname (p : str) : str :=
  let head := head_of p in
  if Py.truthy head && negb (forallb (N.eqb sep) head)
  then Py.rstrip sep head else head.

(** One round of the loop of [join]. *)
Definition join2 (path b : str) : str :=
  if Py.startswith [sep] b then b
  else if negb (Py.truthy path) || Py.endswith [sep] path then path ++ b
  else path ++ [sep] ++ b.

Definition join (a : str) (p : list str) : str := fold_left join2 p a.

(** [expanduser('~' + rest)] where [rest] starts with a slash and [home]
    is the value of [HOME]. *)
Definition expanduser_tilde (home rest : str) : str :=
  Py.or_ (Py.rstrip sep home ++ rest) [sep].

End PosixPath.

(** ** Icon images *)

(** One line of the listing: [image[INDEX]], [image[WIDTH]], [image[HEIGHT]]
    and [image[BIT_DEPTH]]. *)
Record image := Image { INDEX : Z; WIDTH : Z; HEIGHT : Z; BIT_DEPTH : Z }.

Definition ICON_SIZE : Z := 64.

Module Builtins.
Section MinMaxSort.
Context {A : Type}.
(** [lt a b]: the key of [a] is less than the key of [b]. *)
Variable lt : A -> A -> bool.

(** [min(l, key=...)]: the first item whose key is least; [None] stands
    for the [ValueError] of an empty sequence. *)
Definition min_by (l : list A) : option A :=
  match l with
  | [] => None
  | x :: r => Some (fold_left (fun best y => if lt y best then y else best) r x)
  end.

(** [max(l, key=...)]: the first item whose key is greatest. *)
Definition max_by (l : list A) : option A :=
  match l with
  | [] => None
  | x :: r => Some (fold_left (fun best y => if lt best y then y else best) r x)
  end.

(** Insertion into a sorted list, before the first item that is not
    smaller: an item stays ahead of later items of equal key. *)
Fixpoint insert_sorted (x : A) (l : list A) : list A :=
  match l with
  | [] => [x]
  | y :: r => if lt y x then y :: insert_sorted x r else x :: y :: r
  end.

(** [l.sort(key=...)]: the stable sort. *)
Fixpoint sort_by (l : list A) : list A :=
  match l with
  | [] => []
  | x :: r => insert_sorted x (sort_by r)
  end.
End MinMaxSort.
End Builtins.

(** *** Selection of the image to show *)

(** Two images of the same width and height. *)
Definition same_size (i j : image) : bool :=
  (WIDTH i =? WIDTH j) && (HEIGHT i =? HEIGHT j).

(** *** The order of the theme loop *)

(** [(w1, h1, d1) < (w2, h2, d2)] on the keys
    [(image[WIDTH], image[HEIGHT], -image[BIT_DEPTH])]. *)
Definition theme_key_lt (i j : image) : bool :=
  (WIDTH i <? WIDTH j)
  || ((WIDTH i =? WIDTH j)
      && ((HEIGHT i <? HEIGHT j)
          || ((HEIGHT i =? HEIGHT j) && (- BIT_DEPTH i <? - BIT_DEPTH j)))).

Definition sort_images (images : list image) : list image :=
  Builtins.sort_by theme_key_lt images.

(** ** Exceptions, external calls and the monad of the effectful code *)

Inductive exn := CalledProcessError | KeyError | ValueError | OSError | OverflowError.

Definition result (A : Type) : Type := exn + A.

Definition res_bind {A B : Type} (m : result A) (k : A -> result B) : result B :=
  match m with
  | inl e => inl e
  | inr a => k a
  end.

(** What the program asks of the world outside. *)
Inductive call :=
| IcotoolList (ico : str)
    (** [["icotool", "-l", ico]] *)
| IcotoolExtract (index : Z) (ico cwd : str)
    (** [["icotool", "-x", "--icon", "--index", str(index), ico]] run in [cwd] *)
| Makedirs (path : str)
    (** [os.makedirs(path, exist_ok = True)] *)
| Move (src dst : str)
    (** [shutil.move(src, dst)] *)
| XdgIconResourceForceupdate.
    (** [["xdg-icon-resource", "forceupdate"]] *)

(** The calls made so far, oldest first. *)
Definition history := list call.

(** A computation reads and extends the history and ends with a value or
    with an exception. *)
Definition M (A : Type) : Type := history -> result A * history.

Definition ret {A : Type} (a : A) : M A := fun h => (inr a, h).

Definition raise {A : Type} (e : exn) : M A := fun h => (inl e, h).

Definition bind {A B : Type} (m : M A) (k : A -> M B) : M B :=
  fun h =>
    match m h with
    | (inl e, h') => (inl e, h')
    | (inr a, h') => k a h'
    end.

Definition lift {A : Type} (r : result A) : M A := fun h => (r, h).

Declare Scope monad_scope.
Delimit Scope monad_scope with monad.
Notation "'do' x <- m ; k" := (bind m (fun x => k))
  (at level 10, x name, m at level 100, k at level 200) : monad_scope.
Notation "m ;; k" := (bind m (fun _ => k))
  (at level 100, k at level 200, right associativity) : monad_scope.
Notation "'try' x <- m ; k" := (res_bind m (fun x => k))
  (at level 10, x name, m at level 100, k at level 200) : monad_scope.
Open Scope monad_scope.

(** ** The listing of [icotool -l] *)

Module Re.

(** The pattern of [iconImages]: two dashes, a first group of bytes other
    than space and the equals sign, then, optionally, an equals sign and a
    second group of bytes other than space; both groups are greedy.  It is
    matched from left to right, a byte at a time; the states are: outside
    a match, after one dash, inside the first group, inside the second. *)
Inductive state :=
| Outside
| Dash
| InKey (key : bytes)
| InValue (key value : bytes).

Definition dash : N := 45%N.
Definition space : N := 32%N.
Definition equals : N := 61%N.

(** [re.findall]: the pairs of groups of the successive matches; a second
    group that takes no part in a match is the empty byte string. *)
Fixpoint findall_from (st : state) (s : bytes) : list (bytes * bytes) :=
  match s with
  | [] =>
      match st with
      | InKey k => [(k, [])]
      | InValue k v => [(k, v)]
      | _ => []
      end
  | c :: r =>
      match st with
      | Outside => findall_from (if N.eqb c dash then Dash else Outside) r
      | Dash => findall_from (if N.eqb c dash then InKey [] else Outside) r
      | InKey k =>
          if N.eqb c space then (k, []) :: findall_from Outside r
          else if N.eqb c equals then findall_from (InValue k []) r
          else findall_from (InKey (k ++ [c])) r
      | InValue k v =>
          if N.eqb c space then (k, v) :: findall_from Outside r
          else findall_from (InValue k (v ++ [c])) r
      end
  end.

Definition findall (s : bytes) : list (bytes * bytes) := findall_from Outside s.

End Re.

(** [dict(pairs)]: a later pair replaces an earlier one of the same key. *)
Definition dict (pairs : list (bytes * bytes)) : gmap bytes bytes :=
  foldl (fun d kv => <[kv.1 := kv.2]> d) ∅ pairs.

(** [icons[:-1]] when [icons] is not empty and its last byte is a newline. *)
Definition strip_newline (icons : bytes) : bytes :=
  if Py.truthy icons && N.eqb (List.last icons 0%N) c_nl
  then removelast icons else icons.

(** [[f(x) for x in l]] where [f] may raise. *)
Fixpoint res_map {A B : Type} (f : A -> result B) (l : list A) : result (list B) :=
  match l with
  | [] => inr []
  | x :: r =>
      try y <- f x;
      try ys <- res_map f r;
      inr (y :: ys)
  end.

(** ** ASCII letters and digits *)

Definition is_ascii (c : char) : bool := (c <? 128)%N.
Definition ascii_upper_letter (c : char) : bool := (65 <=? c)%N && (c <=? 90)%N.
Definition ascii_lower_letter (c : char) : bool := (97 <=? c)%N && (c <=? 122)%N.
Definition ascii_digit (c : char) : bool := (48 <=? c)%N && (c <=? 57)%N.
Definition ascii_alnum (c : char) : bool :=
  ascii_digit c || ascii_upper_letter c || ascii_lower_letter c.
Definition ascii_upper (c : char) : char :=
  if ascii_lower_letter c then (c - 32)%N else c.
Definition ascii_lower (c : char) : char :=
  if ascii_upper_letter c then (c + 32)%N else c.

(** ** The form *)

(** The fields of the form [commandLine] reads. *)
Record form := Form {
  resolutionFix : bool;
  legacyFS : bool;
  executable_path : str;
  wine_text : str;
  prefix_path : str;
  appParams_text : str
}.

(** ** Floating point numbers *)

(** A Python [float] is a binary64 number of IEEE 754: a mantissa of 53
    bits, infinities at the exponent 1024. *)
Module Float.

Definition prec : Z := 53.
Definition emax : Z := 1024.

Definition float : Type := spec_float.

Definition zero : float := S754_zero false.
Definition inf : float := S754_infinity false.
Definition nan : float := S754_nan.

(** [float(z)] for an [int]: the nearest [float], the even one of two
    nearest; an [int] that rounds beyond the greatest [float] raises. *)
Definition of_int (z : Z) : result float :=
  match binary_normalize prec emax z 0 false with
  | S754_infinity _ => inl OverflowError
  | x => inr x
  end.

(** [x - y], [abs(x)] and [x < y]. *)
Definition sub : float -> float -> float := SFsub prec emax.
Definition abs : float -> float := SFabs.
Definition ltb : float -> float -> bool := SFltb.

(** [x * y] and the square root rounded to nearest. *)
Definition mul : float -> float -> float := SFmul prec emax.
Definition add : float -> float -> float := SFadd prec emax.
Definition sqrt : float -> float := SFsqrt prec emax.

Definition is_inf (x : float) : bool :=
  match x with
  | S754_infinity _ => true
  | _ => false
  end.

Definition is_finite (x : float) : bool :=
  match x with
  | S754_zero _ | S754_finite _ _ _ => true
  | _ => false
  end.

End Float.

(** The value of [x ** 0.5]: a [float], or a [complex] when [x] is
    negative. *)
Inductive number :=
| Real (x : Float.float)
| Complex (re im : Float.float).

(** ** Sample values of the parameters *)

Module Sample.

Definition home : str := lit "/home/u".
Definition temporary : str := lit "/tmp/wlc".

(** Tables that leave the characters outside ASCII alone. *)
Definition upper_nonascii (c : char) : str := [c].
Definition lower_nonascii (c : char) : str := [c].
Definition isalnum_nonascii (c : char) : bool := false.
Definition nfkd (s : str) : str := s.
Definition combining (c : char) : Z := 0.

(** Decimal literals with an optional minus sign. *)
Definition int_of_bytes (b : bytes) : option Z :=
  option_map Z.of_int
    (NilZero.int_of_string (string_of_list_ascii (map ascii_of_N b))).

(** The square root rounded to nearest for [x ** 0.5]. *)
Definition pow_half (x : Float.float) : Float.float := Float.sqrt x.

(** The complex power as the interpreter computes it from the polar form:
    the length is the root of [-x], the angle the [float] nearest to a
    quarter turn, whose cosine is the [float] below and whose sine is 1. *)
Definition cos_quarter_turn : Float.float :=
  S754_finite false 4967757600021511 (-106).

Definition complex_pow_half (x : Float.float) : Float.float * Float.float :=
  let len := Float.sqrt (Float.abs x) in
  (Float.mul len cos_quarter_turn, len).

Definition hypot (x y : Float.float) : Float.float :=
  Float.sqrt (Float.add (Float.mul x x) (Float.mul y y)).

(** A listing of three images, as [icotool -l] prints it. *)
Definition listing : bytes :=
  lit "--icon --index=1 --width=32 --height=32 --bit-depth=8 --palette-size=256"
    ++ [c_nl]
    ++ lit "--icon --index=2 --width=16 --height=16 --bit-depth=8 --palette-size=256"
    ++ [c_nl]
    ++ lit "--icon --index=3 --width=32 --height=32 --bit-depth=32 --palette-size=0"
    ++ [c_nl].

(** A world where every call succeeds and [icotool -l] prints [listing]. *)
Definition oracle (h : history) (c : call) : Z * bytes :=
  match c with
  | IcotoolList _ => (0, listing)
  | _ => (0, [])
  end.

(** A world where every call fails. *)
Definition failing_oracle (h : history) (c : call) : Z * bytes := (1, []).

Definition images : list image :=
  [Image 1 32 32 8; Image 2 16 16 8; Image 3 32 32 32].

(** A launcher with the resolution box checked. *)
Definition launcher : form :=
  Form true false (lit "/games/My Game/run.exe") (lit "wine") (lit "/home/u/.wine") [].

End Sample.

(** ** The program *)

Section Program.

(** The value of [HOME]. *)
Variable home : str.
(** [self.temporary], the scratch directory. *)
Variable temporary : str.
(** [c.upper()], [c.lower()] and [c.isalnum()] for a [c] outside ASCII. *)
Variable upper_nonascii : char -> str.
Variable lower_nonascii : char -> str.
Variable isalnum_nonascii : char -> bool.
(** [unicodedata.normalize('NFKD', s)] and [unicodedata.combining(c)]. *)
Variable nfkd : str -> str.
Variable combining : char -> Z.
(** [int(b)] for a byte string; [None] stands for its [ValueError]. *)
Variable int_of_bytes : bytes -> option Z.
(** The exit status and the output of a call, given the calls before it. *)
Variable oracle : history -> call -> Z * bytes.
(** [x ** 0.5] for a [float] [x] that is not negative: the [pow] of the C
    library. *)
Variable pow_half : Float.float -> Float.float.
(** [x ** 0.5] for a negative [float] [x]: the real and the imaginary part
    of the complex power. *)
Variable complex_pow_half : Float.float -> Float.float * Float.float.
(** [hypot] of the C library, which [abs] calls on a complex number. *)
Variable hypot : Float.float -> Float.float -> Float.float.

(** *** Strings *)

Definition upper (s : str) : str :=
  flat_map (fun c => if is_ascii c then [ascii_upper c] else upper_nonascii c) s.

Definition lower (c : char) : str :=
  if is_ascii c then [ascii_lower c] else lower_nonascii c.

Definition isalnum (c : char) : bool :=
  if is_ascii c then ascii_alnum c else isalnum_nonascii c.

(** *** Processes and files *)

Definition external (c : call) : M (Z * bytes) :=
  fun h => (inr (oracle h c), h ++ [c]).

(** [subprocess.check_output]. *)
Definition check_output (c : call) : M bytes :=
  do r <- external c;
  if r.1 =? 0 then ret r.2 else raise CalledProcessError.

(** [subprocess.check_call]. *)
Definition check_call (c : call) : M unit :=
  do r <- external c;
  if r.1 =? 0 then ret tt else raise CalledProcessError.

(** [subprocess.call]: the exit status is the value. *)
Definition subprocess_call (c : call) : M Z :=
  do r <- external c; ret r.1.

(** [os.makedirs] and [shutil.move]: a status other than zero stands for
    the [OSError] they raise. *)
Definition os_call (c : call) : M unit :=
  do r <- external c;
  if r.1 =? 0 then ret tt else raise OSError.

(** *** [getSuffix], [multiIconFile], [defaultWinePrefix] *)

Definition getSuffix (file : str) : str := upper (Py.last_n 4 file).

Definition multiIconFile (suffix : str) : bool :=
  existsb (Py.str_eqb suffix) [lit ".EXE"; lit ".DLL"; lit ".ICL"].

Definition defaultWinePrefix : str := PosixPath.expanduser_tilde home (lit "/.wine").

(** *** [iconImages] *)

(** [int(image[key])]. *)
Definition int_item (d : gmap bytes bytes) (key : bytes) : result Z :=
  match d !! key with
  | None => inl KeyError
  | Some v =>
      match int_of_bytes v with
      | None => inl ValueError
      | Some n => inr n
      end
  end.

(** The tuple built from one line of the listing. *)
Definition image_of_line (line : bytes) : result image :=
  let d := dict (Re.findall line) in
  try i <- int_item d (lit "index");
  try w <- int_item d (lit "width");
  try h <- int_item d (lit "height");
  try b <- int_item d (lit "bit-depth");
  inr (Image i w h b).

(** [iconImages] after the call of [icotool]. *)
Definition images_of_listing (icons : bytes) : result (list image) :=
  res_map image_of_line (Py.split c_nl (strip_newline icons)).

Definition iconImages (ico : str) : M (list image) :=
  do icons <- check_output (IcotoolList ico);
  lift (images_of_listing icons).

(** *** [iconExtract] *)

(** The path [iconExtract] returns. *)
Definition iconExtract_path (ico : str) (i : image) (path : str) : str :=
  let ico := if Py.str_eqb (getSuffix ico) (lit ".ICO")
             then Py.drop_last_n 4 ico else ico in
  PosixPath.join path [PosixPath.basename ico]
    ++ lit "_" ++ Py.str_of_int (INDEX i)
    ++ lit "_" ++ Py.str_of_int (WIDTH i)
    ++ lit "x" ++ Py.str_of_int (HEIGHT i)
    ++ lit "x" ++ Py.str_of_int (BIT_DEPTH i)
    ++ lit ".png".

Definition iconExtract (ico : str) (i : image) (path : str) : M str :=
  check_call (IcotoolExtract (INDEX i) ico path);;
  ret (iconExtract_path ico i path).

(** *** [extractIcoFile] *)

(** [z ** 0.5] for an [int] [z]: the [int] is made a [float] first. *)
Definition int_pow_half (z : Z) : result number :=
  try x <- Float.of_int z;
  inr (if Float.ltb x Float.zero
       then let (re, im) := complex_pow_half x in Complex re im
       else Real (pow_half x)).

(** [a - c] for an [int] [c]: [c] is made a [float] and taken from the
    real part. *)
Definition number_sub_int (a : number) (c : Z) : result number :=
  try y <- Float.of_int c;
  inr (match a with
       | Real x => Real (Float.sub x y)
       | Complex re im => Complex (Float.sub re y) im
       end).

(** [abs(a)]: of a complex number with finite parts it is their [hypot],
    and a result that is not finite raises. *)
Definition number_abs (a : number) : result Float.float :=
  match a with
  | Real x => inr (Float.abs x)
  | Complex re im =>
      if Float.is_finite re && Float.is_finite im then
        let r := hypot re im in
        if Float.is_finite r then inr r else inl OverflowError
      else if Float.is_inf re || Float.is_inf im then inr Float.inf
      else inr Float.nan
  end.

(** The key of the [min]:
    [abs((image[WIDTH] * image[HEIGHT]) ** 0.5 - criterion)]. *)
Definition score (criterion : Z) (i : image) : result Float.float :=
  try root <- int_pow_half (WIDTH i * HEIGHT i);
  try d <- number_sub_int root criterion;
  number_abs d.

(** The selection: [min] calls the key on every image and keeps the first
    image of least key; [max] then takes the first of the deepest images of
    the width and height of that image. *)
Definition selectBest (criterion : Z) (images : list image) : result image :=
  try keys <- res_map (score criterion) images;
  match Builtins.min_by (fun a b => Float.ltb (snd a) (snd b))
          (combine images keys) with
  | None => inl ValueError
  | Some (nearest, _) =>
      match Builtins.max_by (fun i j => BIT_DEPTH i <? BIT_DEPTH j)
              (List.filter (fun i => same_size i nearest) images) with
      | None => inl ValueError
      | Some best => inr best
      end
  end.

Definition extractIcoFile (ico : str) : M str :=
  do images <- iconImages ico;
  do best <- lift (selectBest ICON_SIZE images);
  iconExtract ico best temporary.

(** *** [createLauncher]: the icon theme tree *)

Definition iconPathBase : str :=
  PosixPath.expanduser_tilde home (lit "/.local/share/icons/hicolor").

(** One character of the generator that builds [iconDestination]. *)
Definition normalize_char (c : char) : str :=
  if (isalnum c && (c <? 128)%N) || existsb (N.eqb c) [95%N; 46%N]
  then lower c else lit "-".

(** The [join] over the generator: the characters of the decomposed
    string that are not combining, each replaced by [normalize_char]. *)
Definition normalize_name (s : str) : str :=
  flat_map normalize_char (List.filter (fun c => combining c =? 0) (nfkd s)).

(** [iconDestination] for the text [name] of the name field. *)
Definition iconDestination (name : str) : str :=
  lit "wlcreator-" ++ normalize_name (PosixPath.basename name).

(** The directory of the images of one size. *)
Definition iconPath (i : image) : str :=
  PosixPath.join iconPathBase
    [Py.str_of_int (WIDTH i) ++ lit "x" ++ Py.str_of_int (HEIGHT i); lit "apps"].

(** The test of the loop: no previous image, or one of another size. *)
Definition new_size (prev : option image) (i : image) : bool :=
  match prev with
  | None => true
  | Some p => negb (WIDTH i =? WIDTH p) || negb (HEIGHT i =? HEIGHT p)
  end.

(** The body of the [if] of the loop. *)
Definition place_icon (iconSource dest : str) (i : image) : M unit :=
  os_call (Makedirs (iconPath i));;
  do png <- iconExtract iconSource i temporary;
  os_call (Move png (PosixPath.join (iconPath i) [dest ++ lit ".png"])).

(** [for image in images], with the value of [prev] on entry. *)
Fixpoint theme_loop (iconSource dest : str) (prev : option image)
    (images : list image) : M unit :=
  match images with
  | [] => ret tt
  | i :: rest =>
      (if new_size prev i then place_icon iconSource dest i else ret tt);;
      theme_loop iconSource dest (Some i) rest
  end.

(** The theme tree of a listed catalog: the sort and the loop. *)
Definition buildThemeTree (images : list image) (iconSource dest : str) : M unit :=
  theme_loop iconSource dest None (sort_images images).

(** The icon part of [createLauncher], from the second [getSuffix] to
    the end of its [if]; the value is [iconDestination]. *)
Definition createLauncher_icon (iconSource name : str) : M str :=
  if Py.str_eqb (getSuffix iconSource) (lit ".ICO") then
    do images <- iconImages iconSource;
    buildThemeTree images iconSource (iconDestination name);;
    subprocess_call XdgIconResourceForceupdate;;
    ret (iconDestination name)
  else ret iconSource.

(** *** [commandLine] *)

Definition legacy_fullscreen_off : str :=
  lit "gconftool -s /apps/compiz-1/plugins/workarounds/screen0/options/legacy_fullscreen -s false -t bool".

(** [prefix] and [suffix] after the two [if]s. *)
Definition sh_prefix (f : form) : str :=
  if legacyFS f then legacy_fullscreen_off ++ lit " ; " ++ [] else [].

Definition sh_suffix (f : form) : str :=
  let suffix := if resolutionFix f then [] ++ lit " ; xrandr -s 0" else [] in
  if legacyFS f then suffix ++ lit " ; " ++ legacy_fullscreen_off else suffix.

Definition needsSh (f : form) : str := Py.or_ (sh_prefix f) (sh_suffix f).

(** The executable, relative to its directory when it lies in it. *)
Definition relative_exe (exe : str) : str :=
  let exeDirectory := PosixPath.dirname exe in
  if (length exeDirectory <? length exe)%nat
     && Py.str_eqb (firstn (length exeDirectory) exe) exeDirectory
     && bool_decide (nth_error exe (length exeDirectory) = Some PosixPath.sep)
  then skipn (length exeDirectory + 1) exe else exe.

(** The command before the shell wrapping: the value of [exe] at the last
    [if] of [commandLine]. *)
Definition inner_command (f : form) : str :=
  let allow := Py.truthy (needsSh f) in
  let exe := wine_text f ++ lit " " ++ escape (relative_exe (executable_path f)) allow in
  let exe :=
    if negb (Py.str_eqb defaultWinePrefix (prefix_path f))
    then lit "env " ++ escape (lit "WINEPREFIX=" ++ prefix_path f) allow ++ lit " " ++ exe
    else exe in
  if negb (Py.str_eqb (appParams_text f) [])
  then exe ++ lit " " ++ appParams_text f else exe.

Definition commandLine (f : form) : str :=
  if Py.truthy (needsSh f)
  then lit "sh -c " ++ escape (sh_prefix f ++ inner_command f ++ sh_suffix f) false
  else inner_command f.

(** *** [MainWindow.__init__]: the path of the desktop *)

(** How the [while] loop over [desktopPath] ends. *)
Inductive loop_end := Exited (desktopPath : str) | IndexError | OutOfFuel.

(** [while self.desktopPath[-1] == "\n": self.desktopPath = self.desktopPath[:-1]],
    for at most [fuel] tests of the condition; [desktopPath[-1]] raises
    [IndexError] on the empty string. *)
Fixpoint desktopPath_loop (fuel : nat) (desktopPath : str) : loop_end :=
  match fuel with
  | O => OutOfFuel
  | S fuel =>
      match desktopPath with
      | [] => IndexError
      | _ :: _ =>
          if N.eqb (List.last desktopPath 0%N) c_nl
          then desktopPath_loop fuel (removelast desktopPath)
          else Exited desktopPath
      end
  end.

(** The loop on the decoded output of [xdg-user-dir DESKTOP]. *)
Definition desktopPath_of (output : str) : loop_end :=
  desktopPath_loop (S (length output)) output.

(** *** [writeLauncher]: the mode of the launcher *)

(** [mode & ~umask], with [0o777] and [0o666] in decimal. *)
Definition writeLauncher_mode (executableIcon : bool) (umask : Z) : Z :=
  let mode := if executableIcon then 511 else 438 in
  Z.land mode (Z.lnot umask).

(** *** [populateIconList] and [createLauncher]: the icons of a container *)

(** [os.path.basename(ico)[prefixSize:][:-4]]. *)
Definition icon_title (iconPath ico : str) : str :=
  let prefixSize := (length (PosixPath.basename iconPath) + 4)%nat in
  Py.drop_last_n 4 (skipn prefixSize (PosixPath.basename ico)).

(** [os.path.join(self.temporary, title + ".ico")]. *)
Definition ico_path (title : str) : str :=
  PosixPath.join temporary [title ++ lit ".ico"].

(** [iconSource] of [createLauncher] before the second [getSuffix], for the
    path of the icon field and the titles of the selected items; [None]
    stands for the return without launcher when nothing is selected. *)
Definition createLauncher_iconSource (iconPath : str) (selected : list str)
    : option str :=
  if multiIconFile (getSuffix iconPath) then
    match selected with
    | [] => None
    | title :: _ => Some (ico_path title)
    end
  else Some iconPath.

(** ** Vocabulary of the statements *)

(** The double-quote branch, character by character: a backslash goes
    before each of the six characters of the class, and the tab and the
    newline that follow it become the letters [t] and [n]. *)
Definition dq_escape_char (c : char) : str :=
  if N.eqb c c_tab then [c_backslash; 116%N]
  else if N.eqb c c_nl then [c_backslash; 110%N]
  else if existsb (N.eqb c) [c_dquote; 96%N; 36%N; c_backslash] then [c_backslash; c]
  else [c].

(** The double-quote branch as the specification words it: a backslash goes
    before the double quote, the backtick, the dollar and the backslash
    only, and the tab and the newline become the bare letters. *)
Definition dq_escape_char_as_claimed (c : char) : str :=
  if N.eqb c c_tab then [116%N]
  else if N.eqb c c_nl then [110%N]
  else if existsb (N.eqb c) [c_dquote; 96%N; 36%N; c_backslash] then [c_backslash; c]
  else [c].

Definition is_sq_illegal (c : char) : bool := Py.char_in c sq_illegal.

Definition is_reserved (c : char) : bool := Py.char_in c reserved.

(** The key of the image is computed: no [OverflowError]. *)
Definition scored (c : Z) (i : image) : Prop := exists k, score c i = inr k.

(** Equality without regard to case, as [getSuffix] takes it: both sides
    in upper case. *)
Definition equal_ignoring_case (a b : str) : Prop := upper a = upper b.

(** What follows the base name in the name of an extracted image. *)
Definition output_suffix (i : image) : str :=
  lit "_" ++ Py.str_of_int (INDEX i)
    ++ lit "_" ++ Py.str_of_int (WIDTH i)
    ++ lit "x" ++ Py.str_of_int (HEIGHT i)
    ++ lit "x" ++ Py.str_of_int (BIT_DEPTH i)
    ++ lit ".png".

(** The replacement of one character as the specification words it. *)
Definition normalize_char_as_claimed (c : char) : str :=
  if is_ascii c && ascii_alnum c then [ascii_lower c]
  else if N.eqb c 95 || N.eqb c 46 then [c]
  else lit "-".

(** [i] is not after [j] in the order of the keys. *)
Definition key_le (i j : image) : Prop := theme_key_lt j i = false.

(** The images for which the body of the [if] runs, given [prev]. *)
Fixpoint placed (prev : option image) (images : list image) : list image :=
  match images with
  | [] => []
  | i :: rest => (if new_size prev i then [i] else []) ++ placed (Some i) rest
  end.

(** The calls of the body of the [if], in the order they are made. *)
Definition place_calls (iconSource dest : str) (i : image) : list call :=
  [Makedirs (iconPath i);
   IcotoolExtract (INDEX i) iconSource temporary;
   Move (iconExtract_path iconSource i temporary)
        (PosixPath.join (iconPath i) [dest ++ lit ".png"])].

(** A character of a decimal number: the minus sign or a digit. *)
Definition decimal_char (c : char) : Prop := c = 45%N \/ (48 <= c <= 57)%N.

(** [<width>x<height>]. *)
Definition size_dir (i : image) : str :=
  Py.str_of_int (WIDTH i) ++ lit "x" ++ Py.str_of_int (HEIGHT i).

(** The file of the theme for the images of the size of [i]. *)
Definition theme_file (dest : str) (i : image) : str :=
  iconPathBase ++ lit "/" ++ size_dir i ++ lit "/apps/" ++ dest ++ lit ".png".

(** [c] moves a file to [path]. *)
Definition moves_to (path : str) (c : call) : bool :=
  match c with
  | Move _ dst => Py.str_eqb dst path
  | _ => false
  end.

(** A string without tab and without newline. *)
Definition one_line (s : str) : Prop := ~ In c_tab s /\ ~ In c_nl s.

(** The exception raised when the call [c] fails. *)
Definition raised_by (c : call) : exn :=
  match c with
  | Makedirs _ | Move _ _ => OSError
  | _ => CalledProcessError
  end.

(** The calls of [plan] made in turn from the history [h], up to the first
    that fails. *)
Fixpoint run_plan (h : history) (plan : list call) : result unit * history :=
  match plan with
  | [] => (inr tt, h)
  | c :: rest =>
      if (oracle h c).1 =? 0 then run_plan (h ++ [c]) rest
      else (inl (raised_by c), h ++ [c])
  end.

(** A character of the name of a theme icon: a lower case letter, a digit,
    the underscore, the period or the hyphen. *)
Definition theme_name_char (c : char) : bool :=
  ascii_lower_letter c || ascii_digit c || existsb (N.eqb c) [95%N; 46%N; 45%N].

(** A token of a line of the listing: two dashes, a key and, for a token
    with a value, the equals sign and the value. *)
Definition render_token (t : bytes * option bytes) : bytes :=
  [Re.dash; Re.dash] ++ t.1
    ++ match t.2 with Some v => Re.equals :: v | None => [] end.

(** The byte strings of [l] with [sep] between them. *)
Fixpoint join_bytes (sep : N) (l : list bytes) : bytes :=
  match l with
  | [] => []
  | [x] => x
  | x :: r => x ++ sep :: join_bytes sep r
  end.

(** A key holds no space and no equals sign; a value holds no space. *)
Definition token_ok (t : bytes * option bytes) : Prop :=
  ~ In Re.space t.1 /\ ~ In Re.equals t.1
  /\ forall v, t.2 = Some v -> ~ In Re.space v.

(** The pair of groups of a token. *)
Definition token_groups (t : bytes * option bytes) : bytes * bytes :=
  (t.1, match t.2 with Some v => v | None => [] end).

(** The line [icotool -l] prints for an icon image with a palette of
    [palette] colours. *)
Definition listing_line (i : image) (palette : Z) : bytes :=
  lit "--icon --index=" ++ Py.str_of_int (INDEX i)
    ++ lit " --width=" ++ Py.str_of_int (WIDTH i)
    ++ lit " --height=" ++ Py.str_of_int (HEIGHT i)
    ++ lit " --bit-depth=" ++ Py.str_of_int (BIT_DEPTH i)
    ++ lit " --palette-size=" ++ Py.str_of_int palette.

(** The listing of a catalog: a line and a newline for every image. *)
Definition render_listing (l : list (image * Z)) : bytes :=
  flat_map (fun ip => listing_line ip.1 ip.2 ++ [c_nl]) l.

(** *** [createLauncher]: the text of the launcher *)

(** [launcherText] for the form, the state of the box that makes the
    launcher executable, the text of the name field, the value of
    [iconDestination] and the texts of the checked categories. *)
Definition launcherText (f : form) (executableIcon : bool)
    (name iconDestination : str) (categories : list str) : str :=
  let exeDirectory := PosixPath.dirname (executable_path f) in
  let launcherText := [] in
  let launcherText :=
    if executableIcon
    then launcherText ++ lit "#!/usr/bin/env xdg-open" ++ [c_nl; c_nl]
    else launcherText in
  let launcherText := launcherText ++ lit "[Desktop Entry]" ++ [c_nl] in
  let launcherText := launcherText ++ lit "Type=Application" ++ [c_nl] in
  let launcherText := launcherText ++ lit "Version=1.0" ++ [c_nl] in
  let launcherText := launcherText ++ lit "Name=" ++ name ++ [c_nl] in
  let launcherText := launcherText ++ lit "Icon=" ++ iconDestination ++ [c_nl] in
  let launcherText := launcherText ++ lit "Exec=" ++ commandLine f ++ [c_nl] in
  let launcherText := launcherText ++ lit "Path=" ++ exeDirectory ++ [c_nl] in
  match categories with
  | [] => launcherText
  | _ :: _ =>
      launcherText ++ lit "Categories=" ++ join_bytes 59%N categories ++ [c_nl]
  end.

(** The lines of the launcher, as the specification of desktop entries
    orders them. *)
Definition launcher_lines (f : form) (executableIcon : bool)
    (name iconDestination : str) (categories : list str) : list str :=
  (if executableIcon then [lit "#!/usr/bin/env xdg-open"; []] else [])
    ++ [lit "[Desktop Entry]"; lit "Type=Application"; lit "Version=1.0";
        lit "Name=" ++ name; lit "Icon=" ++ iconDestination;
        lit "Exec=" ++ commandLine f;
        lit "Path=" ++ PosixPath.dirname (executable_path f)]
    ++ match categories with
       | [] => []
       | _ :: _ => [lit "Categories=" ++ join_bytes 59%N categories]
       end.

(** The parameters of the program play no part in the proofs that start
    with this tactic. *)
Ltac pure_proof :=
  try clear home; try clear temporary; try clear upper_nonascii;
  try clear lower_nonascii; try clear isalnum_nonascii; try clear nfkd;
  try clear combining; try clear int_of_bytes; try clear oracle;
  try clear pow_half; try clear complex_pow_half; try clear hypot.

(** ** Properties of [escape] *)

Lemma escape_scan_from (text : str) (a b : bool) :
  fold_left escape_scan_step text (a, b)
  = (a || existsb is_sq_illegal text,
     b || existsb (fun c => negb (is_sq_illegal c) && is_reserved c) text).
Proof.
  revert a b; induction text as [|c text IH]; intros a b.
  - simpl. now rewrite !orb_false_r.
  - cbn [fold_left existsb].
    destruct (escape_scan_step (a, b) c) as [a' b'] eqn:E. rewrite IH.
    unfold escape_scan_step, is_sq_illegal, is_reserved in *.
    destruct (Py.char_in c sq_illegal); [|destruct (Py.char_in c reserved)];
      injection E as <- <-; cbn [negb andb orb];
      rewrite ?orb_true_r, ?orb_false_r; f_equal;
      destruct a, b; reflexivity.
Qed.

Lemma reserved_chars :
  reserved = [34; 92; 32; 62; 60; 126; 124; 38; 59; 36; 42; 63; 35; 40; 41; 96; 61]%N.
Proof. reflexivity. Qed.

Lemma dq_class_chars : dq_class = [34; 96; 36; 92; 9; 10]%N.
Proof. reflexivity. Qed.

(** Case analysis on a character met in a chain of comparisons. *)
Ltac case_char c :=
  repeat match goal with
    | |- context [N.eqb c ?k] =>
        destruct (N.eqb_spec c k) as [->|?]; cbn;
        try reflexivity; try discriminate; try congruence
    end.

Lemma sq_illegal_not_reserved (c : char) :
  is_sq_illegal c = true -> is_reserved c = false.
Proof.
  unfold is_sq_illegal, is_reserved, Py.char_in. rewrite reserved_chars.
  unfold sq_illegal, c_squote, c_tab, c_nl. cbn. case_char c.
Qed.

Lemma escape_scan_spec (text : str) :
  escape_scan text = (existsb is_sq_illegal text, existsb is_reserved text).
Proof.
  unfold escape_scan. rewrite escape_scan_from. simpl. f_equal.
  induction text as [|c text IH]; simpl; [reflexivity|].
  rewrite IH. destruct (is_sq_illegal c) eqn:E; simpl; [|reflexivity].
  now rewrite (sq_illegal_not_reserved c E).
Qed.

Lemma translate_re_sub_char (c : char) :
  translate_nt (if Py.char_in c dq_class then [c_backslash; c] else [c])
  = dq_escape_char c.
Proof.
  unfold dq_escape_char, Py.char_in. rewrite dq_class_chars.
  unfold translate_nt, c_dquote, c_backslash, c_tab, c_nl. cbn. case_char c.
Qed.

Lemma translate_nt_app (a b : str) :
  translate_nt (a ++ b) = translate_nt a ++ translate_nt b.
Proof. apply map_app. Qed.

Lemma translate_re_sub (text : str) :
  translate_nt (re_sub_backslash text) = flat_map dq_escape_char text.
Proof.
  unfold re_sub_backslash.
  induction text as [|c text IH]; [reflexivity|].
  cbn [flat_map]. rewrite translate_nt_app, IH, translate_re_sub_char.
  reflexivity.
Qed.

Lemma existsb_true_In {A : Type} (p : A -> bool) (l : list A) :
  existsb p l = true <-> exists x, In x l /\ p x = true.
Proof. apply existsb_exists. Qed.

Lemma escape_cases (text : str) (allow : bool) :
  escape text allow =
    if allow && negb (existsb is_sq_illegal text) && existsb is_reserved text
    then [c_squote] ++ text ++ [c_squote]
    else if existsb is_sq_illegal text || existsb is_reserved text
    then [c_dquote] ++ flat_map dq_escape_char text ++ [c_dquote]
    else text.
Proof.
  unfold escape. rewrite escape_scan_spec, translate_re_sub. reflexivity.
Qed.

(** The double-quote branch is taken when the text holds an unsafe or a
    reserved character and single quotes are not chosen. *)
Lemma escape_double_quote_branch (text : str) (allow : bool) :
  (exists c, In c text /\ (is_sq_illegal c = true \/ is_reserved c = true)) ->
  (allow = false \/ exists c, In c text /\ is_sq_illegal c = true) ->
  escape text allow = [c_dquote] ++ flat_map dq_escape_char text ++ [c_dquote].
Proof.
  intros [c [Hc Hk]] Hsq. rewrite escape_cases.
  assert (Hany : existsb is_sq_illegal text || existsb is_reserved text = true).
  { apply orb_true_iff. destruct Hk as [Hk|Hk]; [left|right];
      apply existsb_true_In; eauto. }
  assert (Hno : allow && negb (existsb is_sq_illegal text) && existsb is_reserved text
                = false).
  { destruct Hsq as [->|Hsq]; [reflexivity|].
    apply existsb_true_In in Hsq. rewrite Hsq. now rewrite andb_false_r. }
  now rewrite Hno, Hany.
Qed.

(** C2 (as amended).  When the text holds a character that is unsafe in
    single quotes or reserved, and single quotes are not chosen (they are
    not allowed, or the text holds an unsafe character), [escape] returns
    the text between double quotes where a backslash goes before every
    double quote, backtick, dollar, backslash, tab and newline, and the tab
    and the newline after their backslash are the letters [t] and [n];
    [hello world] without single quotes allowed comes back between double
    quotes with nothing escaped. *)
Theorem escape_double_quotes :
  (forall (text : str) (allow : bool),
      (exists c, In c text /\ (is_sq_illegal c = true \/ is_reserved c = true)) ->
      (allow = false \/ exists c, In c text /\ is_sq_illegal c = true) ->
      escape text allow = [c_dquote] ++ flat_map dq_escape_char text ++ [c_dquote])
  /\ escape (lit "hello world") false = [c_dquote] ++ lit "hello world" ++ [c_dquote].
Proof.
  split; [apply escape_double_quote_branch|reflexivity].
Qed.

(** C3.  A text that holds a single quote is never returned between single
    quotes when they are allowed: it comes back between double quotes, and
    [it's] comes back between double quotes with nothing escaped. *)
Theorem escape_single_quote_inside :
  (forall text : str,
      In c_squote text ->
      escape text true = [c_dquote] ++ flat_map dq_escape_char text ++ [c_dquote]
      /\ escape text true <> [c_squote] ++ text ++ [c_squote])
  /\ escape (lit "it's") true = [c_dquote] ++ lit "it's" ++ [c_dquote].
Proof.
  split; [|reflexivity].
  intros text Hin.
  assert (E : escape text true
              = [c_dquote] ++ flat_map dq_escape_char text ++ [c_dquote]).
  { apply escape_double_quote_branch.
    - exists c_squote. split; [assumption|left; reflexivity].
    - right. exists c_squote. split; [assumption|reflexivity]. }
  split; [exact E|]. rewrite E. discriminate.
Qed.

(** C9.  The empty string comes back empty, whether or not single quotes
    are allowed, and nothing but the empty string does: an empty token is
    never put between quotes. *)
Theorem escape_empty :
  (forall allow : bool, escape [] allow = [])
  /\ (forall (text : str) (allow : bool), escape text allow = [] -> text = []).
Proof.
  split; [intros []; reflexivity|].
  intros text allow. rewrite escape_cases.
  destruct (allow && negb (existsb is_sq_illegal text) && existsb is_reserved text);
    [discriminate|].
  destruct (existsb is_sq_illegal text || existsb is_reserved text);
    [discriminate|trivial].
Qed.

(** ** Properties of the selection of [extractIcoFile] *)

(** *** The order of the floats *)

(** The order of two mantissas with their exponents. *)
Lemma lex_compare_lt (e1 e2 : Z) (m1 m2 : positive) :
  match e1 ?= e2 with
  | Lt => Lt
  | Gt => Gt
  | Eq => Pos.compare_cont Eq m1 m2
  end = Lt
  <-> e1 < e2 \/ (e1 = e2 /\ (m1 < m2)%positive).
Proof.
  pure_proof. change (Pos.compare_cont Eq m1 m2) with (m1 ?= m2)%positive.
  destruct (Z.compare_spec e1 e2), (Pos.compare_spec m1 m2);
    split; intros G; try discriminate; try reflexivity; lia.
Qed.

Lemma lex_compare_opp_lt (e1 e2 : Z) (m1 m2 : positive) :
  match e1 ?= e2 with
  | Lt => Gt
  | Gt => Lt
  | Eq => CompOpp (Pos.compare_cont Eq m1 m2)
  end = Lt
  <-> e2 < e1 \/ (e1 = e2 /\ (m2 < m1)%positive).
Proof.
  pure_proof. change (Pos.compare_cont Eq m1 m2) with (m1 ?= m2)%positive.
  destruct (Z.compare_spec e1 e2), (Pos.compare_spec m1 m2);
    split; intros G; try discriminate; try reflexivity; cbn in *; lia.
Qed.

(** [x < y] for two finite floats that are not zero. *)
Lemma float_ltb_finite (s1 s2 : bool) (m1 m2 : positive) (e1 e2 : Z) :
  Float.ltb (S754_finite s1 m1 e1) (S754_finite s2 m2 e2) = true
  <-> match s1, s2 with
      | true, false => True
      | false, true => False
      | false, false => e1 < e2 \/ (e1 = e2 /\ (m1 < m2)%positive)
      | true, true => e2 < e1 \/ (e1 = e2 /\ (m2 < m1)%positive)
      end.
Proof.
  pure_proof. unfold Float.ltb, SFltb, SFcompare. destruct s1, s2.
  - rewrite <- lex_compare_opp_lt.
    destruct (match e1 ?= e2 with Lt => Gt | Gt => Lt | Eq => _ end);
      split; congruence.
  - tauto.
  - split; [discriminate|tauto].
  - rewrite <- lex_compare_lt.
    destruct (match e1 ?= e2 with Lt => Lt | Gt => Gt | Eq => _ end);
      split; congruence.
Qed.

(** [x < x] is false of every float, the one that is not a number
    included. *)
Lemma float_ltb_irrefl (x : Float.float) : Float.ltb x x = false.
Proof.
  pure_proof. unfold Float.ltb, SFltb.
  destruct x as [s|s| |s m e]; cbn; try reflexivity; destruct s; try reflexivity;
    rewrite Z.compare_refl, Pos.compare_cont_refl; reflexivity.
Qed.

Lemma float_ltb_trans (x y z : Float.float) :
  Float.ltb x y = true -> Float.ltb y z = true -> Float.ltb x z = true.
Proof.
  pure_proof.
  destruct x as [sx|sx| |sx mx ex], y as [sy|sy| |sy my ey], z as [sz|sz| |sz mz ez];
    try (rewrite !float_ltb_finite; destruct sx, sy, sz; intros; try tauto; lia);
    try destruct sx; try destruct sy; try destruct sz; cbn;
    try discriminate; try reflexivity.
Qed.

(** *** The float of an [int] *)

(** A positive number lies between the powers of two of its length in bits. *)
Lemma digits2_pos_bounds (p : positive) :
  2 ^ (Zpos (digits2_pos p) - 1) <= Zpos p < 2 ^ Zpos (digits2_pos p).
Proof.
  pure_proof.
  induction p as [p IH|p IH|]; cbn [digits2_pos]; [| |cbn; lia];
    rewrite Pos2Z.inj_succ;
    replace (Z.succ (Zpos (digits2_pos p)) - 1) with (Z.succ (Zpos (digits2_pos p) - 1)) by lia;
    rewrite !Z.pow_succ_r by lia; lia.
Qed.

Lemma Zdigits2_le (m k : Z) : 0 <= k -> 0 <= m < 2 ^ k -> Zdigits2 m <= k.
Proof.
  pure_proof.
  intros Hk [H0 Hm]. destruct m as [|p|p]; cbn [Zdigits2]; [lia| |lia].
  destruct (digits2_pos_bounds p) as [Hlo _].
  destruct (Z.le_gt_cases (Zpos (digits2_pos p)) k) as [|Hgt]; [assumption|].
  assert (2 ^ k <= 2 ^ (Zpos (digits2_pos p) - 1)) by (apply Z.pow_le_mono_r; lia).
  lia.
Qed.

Lemma Zdigits2_lt (m : Z) : 0 <= m -> m < 2 ^ Zdigits2 m.
Proof.
  pure_proof.
  intros H. destruct m as [|p|p]; cbn [Zdigits2]; [cbn; lia| |lia].
  apply digits2_pos_bounds.
Qed.

(** A shift to the right halves the mantissa. *)
Lemma shr_1_m (mrs : shr_record) :
  0 <= shr_m mrs -> shr_m (shr_1 mrs) = shr_m mrs / 2.
Proof.
  pure_proof.
  destruct mrs as [m r s]. cbn [shr_m]. intros H.
  destruct m as [|[p|p|]|p]; cbn [shr_1 shr_m].
  - reflexivity.
  - rewrite (Pos2Z.inj_xI p). apply Z.div_unique with 1; lia.
  - rewrite (Pos2Z.inj_xO p). apply Z.div_unique with 0; lia.
  - reflexivity.
  - lia.
Qed.

Lemma pow2_xO (n : positive) : 2 ^ Zpos n~0 = 2 ^ Zpos n * 2 ^ Zpos n.
Proof.
  pure_proof.
  rewrite (Pos2Z.inj_xO n). replace (2 * Zpos n) with (Zpos n + Zpos n) by lia.
  apply Z.pow_add_r; lia.
Qed.

Lemma pow2_xI (n : positive) : 2 ^ Zpos n~1 = 2 * (2 ^ Zpos n * 2 ^ Zpos n).
Proof.
  pure_proof.
  rewrite (Pos2Z.inj_xI n). replace (2 * Zpos n + 1) with (Z.succ (Zpos n + Zpos n)) by lia.
  rewrite Z.pow_succ_r, Z.pow_add_r by lia. reflexivity.
Qed.

Lemma iter_shr_1_m (n : positive) :
  forall mrs : shr_record,
    0 <= shr_m mrs -> shr_m (SpecFloat.iter_pos shr_1 n mrs) = shr_m mrs / 2 ^ Zpos n.
Proof.
  pure_proof.
  induction n as [n IH|n IH|]; intros mrs H; cbn [SpecFloat.iter_pos].
  - assert (H1 : 0 <= shr_m (shr_1 mrs)).
    { rewrite shr_1_m by assumption. apply Z.div_pos; lia. }
    assert (H2 : 0 <= shr_m (SpecFloat.iter_pos shr_1 n (shr_1 mrs))).
    { rewrite IH by assumption. apply Z.div_pos; lia. }
    rewrite IH, IH, shr_1_m by assumption.
    rewrite !Z.div_div by lia. now rewrite pow2_xI, Z.mul_assoc.
  - assert (H2 : 0 <= shr_m (SpecFloat.iter_pos shr_1 n mrs)).
    { rewrite IH by assumption. apply Z.div_pos; lia. }
    rewrite IH, IH by assumption.
    rewrite !Z.div_div by lia. now rewrite pow2_xO.
  - rewrite shr_1_m by assumption. reflexivity.
Qed.

(** The exponent and the mantissa after the shift that brings a number to
    its precision. *)
Lemma shr_fexp_snd (m e : Z) (l : location) :
  snd (shr_fexp Float.prec Float.emax m e l) = Z.max e (fexp Float.prec Float.emax (Zdigits2 m + e)).
Proof.
  pure_proof.
  unfold shr_fexp, shr.
  destruct (fexp Float.prec Float.emax (Zdigits2 m + e) - e) eqn:E; cbn [snd]; lia.
Qed.

Lemma shr_fexp_m (m e : Z) (l : location) :
  0 <= m ->
  0 <= shr_m (fst (shr_fexp Float.prec Float.emax m e l)) < 2 ^ Float.prec.
Proof.
  pure_proof.
  intros Hm. unfold shr_fexp, shr.
  assert (Hrec : shr_m (shr_record_of_loc m l) = m).
  { destruct l as [|[]]; reflexivity. }
  pose proof (Zdigits2_lt m Hm) as Hd.
  assert (Hd0 : 0 <= Zdigits2 m).
  { destruct m; cbn; lia. }
  destruct (fexp Float.prec Float.emax (Zdigits2 m + e) - e) as [|n|n] eqn:E; cbn [fst];
    unfold fexp, emin, Float.prec, Float.emax in *.
  - rewrite Hrec. split; [assumption|].
    assert (2 ^ Zdigits2 m <= 2 ^ 53) by (apply Z.pow_le_mono_r; lia). lia.
  - rewrite iter_shr_1_m by (rewrite Hrec; assumption). rewrite Hrec.
    split; [apply Z.div_pos; lia|].
    apply Z.div_lt_upper_bound; [lia|].
    rewrite <- Z.pow_add_r by lia.
    assert (2 ^ Zdigits2 m <= 2 ^ (Zpos n + 53)) by (apply Z.pow_le_mono_r; lia).
    lia.
  - rewrite Hrec. split; [assumption|].
    assert (2 ^ Zdigits2 m <= 2 ^ 53) by (apply Z.pow_le_mono_r; lia). lia.
Qed.

Lemma round_nearest_even_bounds (m : Z) (l : location) :
  m <= round_nearest_even m l <= m + 1.
Proof.
  pure_proof.
  unfold round_nearest_even. destruct l as [|[]]; try destruct (Z.even m); lia.
Qed.

(** Rounding does not overflow when the exponent it starts from leaves
    room for a carry. *)
Lemma binary_round_aux_finite (s : bool) (m e : Z) (l : location) :
  0 <= m -> Z.max e (fexp Float.prec Float.emax (Zdigits2 m + e)) <= 970 ->
  forall s', binary_round_aux Float.prec Float.emax s m e l <> S754_infinity s'.
Proof.
  pure_proof.
  intros Hm He s'. unfold binary_round_aux.
  pose proof (shr_fexp_snd m e l) as E1. pose proof (shr_fexp_m m e l Hm) as B1.
  destruct (shr_fexp Float.prec Float.emax m e l) as [mrs' e']. cbn [fst snd] in E1, B1.
  pose proof (round_nearest_even_bounds (shr_m mrs') (loc_of_shr_record mrs')) as B2.
  set (m'' := round_nearest_even (shr_m mrs') (loc_of_shr_record mrs')) in *.
  pose proof (shr_fexp_snd m'' e' loc_Exact) as E2.
  destruct (shr_fexp Float.prec Float.emax m'' e' loc_Exact) as [mrs'' e'']. cbn [snd] in E2.
  assert (Hd : Zdigits2 m'' <= 54).
  { apply Zdigits2_le; [lia|]. unfold Float.prec in B1. change (2 ^ 54) with (2 * 2 ^ 53). lia. }
  assert (He'' : e'' <= 971).
  { unfold fexp, emin, Float.prec, Float.emax in *. lia. }
  destruct (shr_m mrs''); [discriminate| |discriminate].
  unfold Float.prec, Float.emax. destruct (Z.leb_spec e'' (1024 - 53)); [discriminate|lia].
Qed.

Lemma iter_xO (d m : positive) : Zpos (Pos.iter xO m d) = Zpos m * 2 ^ Zpos d.
Proof.
  pure_proof.
  induction d as [|d IH] using Pos.peano_ind.
  - cbn [Pos.iter]. rewrite Pos2Z.inj_xO. change (2 ^ 1) with 2. lia.
  - rewrite Pos.iter_succ, Pos2Z.inj_xO, IH, Pos2Z.inj_succ, Z.pow_succ_r by lia. lia.
Qed.

Lemma binary_round_finite (s : bool) (m : positive) :
  Zpos m < 2 ^ 1023 ->
  forall s', binary_round Float.prec Float.emax s m 0 <> S754_infinity s'.
Proof.
  pure_proof.
  intros Hm. unfold binary_round.
  pose proof (digits2_pos_bounds m) as [Hlo Hhi].
  assert (HD : Zpos (digits2_pos m) <= 1023).
  { apply (Zdigits2_le (Zpos m)); lia. }
  unfold shl_align.
  destruct (fexp Float.prec Float.emax (Zpos (digits2_pos m) + 0) - 0) as [|d|d] eqn:E;
    unfold fexp, emin, Float.prec, Float.emax in E;
    apply binary_round_aux_finite; try lia.
  - cbn [Zdigits2]. unfold fexp, emin, Float.prec, Float.emax. lia.
  - cbn [Zdigits2]. unfold fexp, emin, Float.prec, Float.emax. lia.
  - assert (Hz : Zdigits2 (Zpos (Pos.iter xO m d)) <= 53).
    { apply Zdigits2_le; [lia|]. rewrite iter_xO. split; [lia|].
      assert (Zpos (digits2_pos m) + Zpos d = 53) by lia.
      replace 53 with (Zpos (digits2_pos m) + Zpos d) by lia.
      rewrite Z.pow_add_r by lia.
      apply Z.mul_lt_mono_pos_r; lia. }
    unfold fexp, emin, Float.prec, Float.emax. lia.
Qed.

(** An [int] below [2 ^ 1023] in absolute value has a [float]. *)
Lemma of_int_in_range (z : Z) :
  Z.abs z < 2 ^ 1023 -> exists x, Float.of_int z = inr x.
Proof.
  pure_proof. intros Hz. unfold Float.of_int, binary_normalize.
  destruct z as [|m|m].
  - now eexists.
  - pose proof (binary_round_finite false m) as H.
    destruct (binary_round Float.prec Float.emax false m 0) as [s|s| |s m' e];
      try (now eexists).
    exfalso. apply (H ltac:(lia) s). reflexivity.
  - pose proof (binary_round_finite true m) as H.
    destruct (binary_round Float.prec Float.emax true m 0) as [s|s| |s m' e];
      try (now eexists).
    exfalso. apply (H ltac:(lia) s). reflexivity.
Qed.

(** *** The key of [min] *)

Lemma of_int_error (z : Z) (e : exn) : Float.of_int z = inl e -> e = OverflowError.
Proof.
  pure_proof. unfold Float.of_int.
  destruct (binary_normalize _ _ _ _ _); congruence.
Qed.

(** The only exception of the key is [OverflowError]. *)
Lemma score_error (c : Z) (i : image) (e : exn) :
  score c i = inl e -> e = OverflowError.
Proof.
  unfold score, int_pow_half, number_sub_int, number_abs, res_bind.
  destruct (Float.of_int (WIDTH i * HEIGHT i)) as [e1|x] eqn:Ex.
  { intros [= <-]. now apply of_int_error in Ex. }
  destruct (Float.of_int c) as [e2|y] eqn:Ey.
  { intros [= <-]. now apply of_int_error in Ey. }
  destruct (Float.ltb x Float.zero); [|discriminate].
  destruct (complex_pow_half x) as [re im].
  repeat match goal with
         | |- context [if ?b then _ else _] => destruct b
         end; congruence.
Qed.

(** The float of an [int] that is not negative is not below zero. *)
Lemma of_int_nonneg (z : Z) (x : Float.float) :
  0 <= z -> Float.of_int z = inr x -> Float.ltb x Float.zero = false.
Proof.
  pure_proof. unfold Float.of_int, binary_normalize.
  destruct z as [|m|m]; [intros _ [= <-]; reflexivity| |lia].
  intros _. unfold binary_round, binary_round_aux.
  destruct (shl_align _ _ _) as [mz ez].
  destruct (shr_fexp _ _ _ _ _) as [mrs e'].
  destruct (shr_fexp _ _ _ _ _) as [mrs' e''].
  destruct (shr_m mrs'); [|destruct (_ <=? _)|];
    intros [= <-] || discriminate; reflexivity.
Qed.

(** On an area that is not negative the key is the distance of two
    floats: the power of the area and the criterion. *)
Lemma score_real (c : Z) (i : image) :
  0 <= WIDTH i * HEIGHT i ->
  score c i
  = try x <- Float.of_int (WIDTH i * HEIGHT i);
    try y <- Float.of_int c;
    inr (Float.abs (Float.sub (pow_half x) y)).
Proof.
  intros Hz. unfold score, int_pow_half, number_sub_int, number_abs, res_bind.
  destruct (Float.of_int (WIDTH i * HEIGHT i)) as [e1|x] eqn:Ex; [reflexivity|].
  rewrite (of_int_nonneg _ _ Hz Ex).
  destruct (Float.of_int c); reflexivity.
Qed.

(** The key of an image of an area and a criterion within the floats is
    computed: the area is not negative and below [2 ^ 1023], the criterion
    is below [2 ^ 1023] in absolute value. *)
Lemma scored_in_range (c : Z) (i : image) :
  0 <= WIDTH i * HEIGHT i < 2 ^ 1023 -> Z.abs c < 2 ^ 1023 -> scored c i.
Proof.
  intros Ha Hc. unfold scored. rewrite score_real by lia.
  destruct (of_int_in_range (WIDTH i * HEIGHT i)) as [x ->]; [lia|].
  destruct (of_int_in_range c Hc) as [y ->]. cbn [res_bind]. now eexists.
Qed.

Lemma same_size_iff (i j : image) :
  same_size i j = true <-> WIDTH i = WIDTH j /\ HEIGHT i = HEIGHT j.
Proof.
  unfold same_size. now rewrite andb_true_iff, !Z.eqb_eq.
Qed.

(** Images of one width and height have one key. *)
Lemma same_size_score (c : Z) (i j : image) :
  same_size i j = true -> score c i = score c j.
Proof.
  intros [Hw Hh]%same_size_iff. unfold score. now rewrite Hw, Hh.
Qed.


(** *** [min] and [max] with a key *)

(** The loop of [min]: [seen] holds the items met before the current best
    [x]; none of them nor of the items to come is below the result. *)
Lemma fold_min_inv {A : Type} (lt : A -> A -> bool) (P : A -> Prop)
    (irrefl : forall x, P x -> lt x x = false)
    (trans : forall x y z, P x -> P y -> P z ->
                           lt x y = true -> lt y z = true -> lt x z = true)
    (r : list A) :
  forall (x : A) (seen : list A),
    P x -> Forall P r -> Forall P seen ->
    (forall y, In y seen -> lt y x = false) ->
    let m := fold_left (fun best y => if lt y best then y else best) r x in
    In m (x :: r) /\ forall y, In y seen \/ In y (x :: r) -> lt y m = false.
Proof.
  pure_proof.
  induction r as [|z r IH]; intros x seen Px Pr Pseen Hseen; cbn [fold_left].
  - split; [now left|]. intros y [Hy|[<-|[]]]; auto.
  - apply Forall_cons_iff in Pr as [Pz Pr].
    destruct (lt z x) eqn:Hzx.
    + destruct (IH z (x :: seen)) as [Hin Hmin]; auto.
      { intros y [<-|Hy].
        - destruct (lt x z) eqn:Hxz; [|reflexivity].
          rewrite <- (irrefl x Px). symmetry. now apply (trans x z x).
        - destruct (lt y z) eqn:Hyz; [|reflexivity].
          rewrite <- (Hseen y Hy). symmetry. apply (trans y z x); auto.
          rewrite List.Forall_forall in Pseen. auto. }
      split; [now right|].
      intros y Hy. apply Hmin. cbn [In] in *. tauto.
    + destruct (IH x (z :: seen)) as [Hin Hmin]; auto.
      { intros y [<-|Hy]; auto. }
      split; [cbn [In] in *; tauto|].
      intros y Hy. apply Hmin. cbn [In] in *. tauto.
Qed.

Lemma min_by_spec {A : Type} (lt : A -> A -> bool) (P : A -> Prop)
    (irrefl : forall x, P x -> lt x x = false)
    (trans : forall x y z, P x -> P y -> P z ->
                           lt x y = true -> lt y z = true -> lt x z = true)
    (l : list A) :
  l <> [] -> Forall P l ->
  exists m, Builtins.min_by lt l = Some m /\ In m l
            /\ forall y, In y l -> lt y m = false.
Proof.
  destruct l as [|x r]; [congruence|]. intros _ Pl.
  apply Forall_cons_iff in Pl as [Px Pr].
  destruct (fold_min_inv lt P irrefl trans r x [] Px Pr (List.Forall_nil P))
    as [Hin Hmin]; [intros ? []|].
  eexists; split; [reflexivity|]. split; [exact Hin|]. intros y Hy. auto.
Qed.

(** [max] is [min] for the opposite order. *)
Lemma max_by_min_by {A : Type} (lt : A -> A -> bool) (l : list A) :
  Builtins.max_by lt l = Builtins.min_by (fun a b => lt b a) l.
Proof. reflexivity. Qed.

(** *** Images *)

(** The keys [min] computes: one per image, in order. *)
Lemma res_map_scored {A B : Type} (f : A -> result B) (l : list A) :
  Forall (fun x => exists y, f x = inr y) l -> exists ys, res_map f l = inr ys.
Proof.
  pure_proof. induction 1 as [|x l [y Ey] _ [ys Eys]]; cbn [res_map].
  - now exists [].
  - rewrite Ey, Eys. now exists (y :: ys).
Qed.

Lemma res_map_inl {A B : Type} (f : A -> result B) (l : list A) (e : exn) :
  res_map f l = inl e -> exists x, In x l /\ f x = inl e.
Proof.
  pure_proof. induction l as [|x l IH]; cbn [res_map]; [discriminate|].
  destruct (f x) as [e1|y] eqn:Ex; cbn [res_bind].
  - intros [= <-]. exists x. split; [now left|exact Ex].
  - destruct (res_map f l) as [e2|ys]; cbn [res_bind]; [|discriminate].
    intros [= <-]. destruct (IH eq_refl) as (x' & Hin & Ex').
    exists x'. split; [now right|exact Ex'].
Qed.

Lemma combine_keys {A B : Type} (f : A -> result B) (l : list A) (ys : list B) :
  res_map f l = inr ys ->
  (forall x y, In (x, y) (combine l ys) -> In x l /\ f x = inr y)
  /\ (forall x, In x l -> exists y, In (x, y) (combine l ys)).
Proof.
  pure_proof. revert ys. induction l as [|a l IH]; intros ys; cbn [res_map].
  - intros [= <-]. split; [intros x y []|intros x []].
  - destruct (f a) as [e1|b] eqn:Ea; cbn [res_bind]; [discriminate|].
    destruct (res_map f l) as [e2|bs]; cbn [res_bind]; [discriminate|].
    intros [= <-]. destruct (IH bs eq_refl) as [H1 H2]. cbn [combine In]. split.
    + intros x y [[= <- <-]|Hin]; [split; [now left|exact Ea]|].
      destruct (H1 x y Hin) as [Hx Ey]. split; [now right|exact Ey].
    + intros x [<-|Hin]; [exists b; now left|].
      destruct (H2 x Hin) as [y Hy]. exists y. now right.
Qed.

(** The selection on a catalog whose keys are all computed. *)
Lemma selectBest_scored (c : Z) (images : list image) (keys : list Float.float) :
  images <> [] -> res_map (score c) images = inr keys ->
  exists best kb,
    selectBest c images = inr best
    /\ In best images
    /\ score c best = inr kb
    /\ (forall m km, In m images -> score c m = inr km -> Float.ltb km kb = false)
    /\ (forall m, In m images ->
                  WIDTH m = WIDTH best -> HEIGHT m = HEIGHT best ->
                  BIT_DEPTH m <= BIT_DEPTH best).
Proof.
  intros Hne Ek. destruct (combine_keys _ _ _ Ek) as [Hc1 Hc2].
  destruct (min_by_spec
              (fun a b : image * Float.float => Float.ltb (snd a) (snd b))
              (fun _ => True))
    with (l := combine images keys) as ([b0 k0] & Emin & Hin0 & Hmin0).
  { intros x _. apply float_ltb_irrefl. }
  { intros x y z _ _ _. apply float_ltb_trans. }
  { destruct images as [|i images]; [congruence|].
    destruct (Hc2 i (or_introl eq_refl)) as [y Hy].
    intros E. rewrite E in Hy. destruct Hy. }
  { apply List.Forall_forall. auto. }
  destruct (Hc1 _ _ Hin0) as [Hb0 Ek0].
  unfold selectBest. rewrite Ek. cbn [res_bind]. rewrite Emin, max_by_min_by.
  set (sized := List.filter (fun i => same_size i b0) images).
  assert (Hb0s : In b0 sized).
  { apply filter_In. split; [exact Hb0|]. apply same_size_iff. auto. }
  destruct (min_by_spec (fun a b => BIT_DEPTH b <? BIT_DEPTH a) (fun _ => True))
    with (l := sized) as (best & Emax & Hin & Hmax).
  { intros x _. apply Z.ltb_irrefl. }
  { intros x y z _ _ _ Hxy Hyz. apply Z.ltb_lt in Hxy, Hyz. apply Z.ltb_lt. lia. }
  { intros E. rewrite E in Hb0s. destruct Hb0s. }
  { apply List.Forall_forall. auto. }
  exists best, k0. rewrite Emax.
  apply filter_In in Hin as [Hin Hsize].
  split; [reflexivity|]. split; [exact Hin|]. split; [|split].
  - now rewrite (same_size_score c _ _ Hsize).
  - intros m km Hm Em. destruct (Hc2 m Hm) as [km' Hkm'].
    destruct (Hc1 _ _ Hkm') as [_ Em']. rewrite Em in Em'. injection Em' as <-.
    exact (Hmin0 _ Hkm').
  - intros m Hm Hw Hh.
    apply same_size_iff in Hsize as [Hw0 Hh0].
    assert (Hms : In m sized).
    { apply filter_In. split; [exact Hm|]. apply same_size_iff. lia. }
    specialize (Hmax m Hms). apply Z.ltb_ge in Hmax. exact Hmax.
Qed.

(** The selection on a catalog with a key that is not computed. *)
Lemma selectBest_overflow (c : Z) (images : list image) (e : exn) :
  res_map (score c) images = inl e ->
  selectBest c images = inl OverflowError
  /\ exists m, In m images /\ score c m = inl OverflowError.
Proof.
  intros E. destruct (res_map_inl _ _ _ E) as (m & Hin & Em).
  pose proof (score_error _ _ _ Em) as ->.
  unfold selectBest. rewrite E. cbn [res_bind]. split; [reflexivity|].
  now exists m.
Qed.

(** Two images of one area and different sizes: their keys are one float
    whatever the C library computes, the first is returned and the second
    is deeper. *)
Lemma selectBest_first_of_equal_scores :
  selectBest ICON_SIZE [Image 0 32 128 8; Image 1 64 64 32] = inr (Image 0 32 128 8)
  /\ score ICON_SIZE (Image 1 64 64 32) = score ICON_SIZE (Image 0 32 128 8)
  /\ scored ICON_SIZE (Image 0 32 128 8).
Proof.
  assert (E : forall i, WIDTH i * HEIGHT i = 4096 ->
                        exists k, score ICON_SIZE i = inr k).
  { intros i Hi. rewrite score_real by lia. rewrite Hi. eexists. reflexivity. }
  destruct (E (Image 0 32 128 8) eq_refl) as [k Ek].
  assert (Ek' : score ICON_SIZE (Image 1 64 64 32) = inr k) by exact Ek.
  split; [|split; [now rewrite Ek, Ek'|now exists k]].
  unfold selectBest. cbn [res_map]. rewrite Ek, Ek'.
  cbn [res_bind combine Builtins.min_by fold_left snd].
  rewrite float_ltb_irrefl. reflexivity.
Qed.

(** Areas above [2 ^ 53] that round to one float have one key: the first
    image is returned although the area of the second is nearer to the
    square of the criterion. *)
Example selectBest_rounded_tie :
  selectBest ICON_SIZE [Image 0 9007199254740993 1 8; Image 1 9007199254740992 1 8]
  = inr (Image 0 9007199254740993 1 8).
Proof.
  assert (E : exists k,
             score ICON_SIZE (Image 0 9007199254740993 1 8) = inr k
             /\ score ICON_SIZE (Image 1 9007199254740992 1 8) = inr k).
  { rewrite !score_real by (cbn; lia). eexists. split; reflexivity. }
  destruct E as (k & E0 & E1).
  unfold selectBest. cbn [res_map]. rewrite E0, E1.
  cbn [res_bind combine Builtins.min_by fold_left snd].
  rewrite float_ltb_irrefl. reflexivity.
Qed.

(** An area beyond the greatest float: the key raises and no image is
    selected. *)
Example selectBest_area_beyond_floats :
  selectBest ICON_SIZE [Image 0 (10 ^ 200) (10 ^ 200) 8] = inl OverflowError.
Proof. vm_compute. reflexivity. Qed.

(** C1 (as amended).  On a catalog that is not empty and whose keys
    [abs((width * height) ** 0.5 - criterion)] are all computed, [selectBest]
    returns a member of the catalog; no member has a key below the key of
    that member, as floats; and the members of the same width and height as
    the returned image all have its key, and none has a greater bit
    depth. *)
Theorem selectBest_least_score_deepest_of_size (c : Z) (images : list image) :
  images <> [] -> Forall (scored c) images ->
  exists best kb,
    selectBest c images = inr best
    /\ In best images
    /\ score c best = inr kb
    /\ (forall m, In m images ->
                  exists km, score c m = inr km /\ Float.ltb km kb = false)
    /\ (forall m, In m images ->
                  WIDTH m = WIDTH best -> HEIGHT m = HEIGHT best ->
                  score c m = inr kb /\ BIT_DEPTH m <= BIT_DEPTH best).
Proof.
  intros Hne Hs. destruct (res_map_scored _ _ Hs) as [keys Ek].
  destruct (selectBest_scored c images keys Hne Ek)
    as (best & kb & E & Hin & Eb & Hmin & Hmax).
  exists best, kb. repeat (split; [assumption|]). split.
  - intros m Hm. rewrite List.Forall_forall in Hs.
    destruct (Hs m Hm) as [km Em]. exists km. split; [exact Em|].
    now apply (Hmin m).
  - intros m Hm Hw Hh. split; [|now apply Hmax].
    rewrite <- Eb. apply same_size_score. apply same_size_iff. auto.
Qed.

(** ** Properties of [commandLine] *)

Lemma truthy_nonempty (s : str) : Py.truthy s = true <-> s <> [].
Proof. destruct s; cbn; split; congruence. Qed.

Lemma truthy_or (a b : str) :
  Py.truthy (Py.or_ a b) = Py.truthy a || Py.truthy b.
Proof. unfold Py.or_. now destruct a. Qed.

Lemma needsSh_toggles (f : form) :
  Py.truthy (needsSh f) = resolutionFix f || legacyFS f.
Proof.
  unfold needsSh. rewrite truthy_or. unfold sh_prefix, sh_suffix.
  destruct (resolutionFix f), (legacyFS f); reflexivity.
Qed.

(** The two fragments hold no character that [escape] changes, and the
    fragment after the command starts with a space when there is one. *)
Lemma sh_fragments_plain (f : form) :
  flat_map dq_escape_char (sh_prefix f) = sh_prefix f
  /\ flat_map dq_escape_char (sh_suffix f) = sh_suffix f
  /\ (Py.truthy (needsSh f) = true -> exists r, sh_suffix f = 32%N :: r).
Proof.
  rewrite needsSh_toggles. unfold sh_prefix, sh_suffix.
  destruct (resolutionFix f), (legacyFS f);
    (split; [reflexivity|split; [reflexivity|]]);
    intros H; try discriminate H; eexists; reflexivity.
Qed.

(** C5.  [needsSh] is true exactly when one of the two fragments is not
    empty, that is when one of the two boxes is checked; [commandLine] is
    then [sh -c] followed by one argument between double quotes that holds
    the fragment before the command, the command and the fragment after
    it, and is the command alone otherwise. *)
Theorem commandLine_sh_wrapping (f : form) :
  (Py.truthy (needsSh f) = true <-> sh_prefix f <> [] \/ sh_suffix f <> [])
  /\ (Py.truthy (needsSh f) = true <-> resolutionFix f = true \/ legacyFS f = true)
  /\ (Py.truthy (needsSh f) = true ->
      commandLine f
      = lit "sh -c " ++ [c_dquote]
          ++ sh_prefix f ++ flat_map dq_escape_char (inner_command f) ++ sh_suffix f
          ++ [c_dquote])
  /\ (Py.truthy (needsSh f) = false -> commandLine f = inner_command f).
Proof.
  pure_proof. repeat split.
  - unfold needsSh. rewrite truthy_or, orb_true_iff, !truthy_nonempty. tauto.
  - unfold needsSh. rewrite truthy_or, orb_true_iff, !truthy_nonempty. tauto.
  - rewrite needsSh_toggles. apply orb_true_iff.
  - rewrite needsSh_toggles. apply orb_true_iff.
  - intros H. unfold commandLine. rewrite H.
    destruct (sh_fragments_plain f) as (Hp & Hs & Hsp).
    destruct (Hsp H) as [r Hr].
    rewrite escape_cases.
    assert (Hres : existsb is_reserved (sh_prefix f ++ inner_command f ++ sh_suffix f)
                   = true).
    { apply existsb_true_In. exists 32%N. split; [|reflexivity].
      apply in_or_app. right. apply in_or_app. right. rewrite Hr. now left. }
    rewrite Hres, orb_true_r. cbn [andb].
    rewrite !flat_map_app, Hp, Hs, <- !app_assoc. reflexivity.
  - intros H. unfold commandLine. now rewrite H.
Qed.

(** ** Properties of [iconImages] *)

Lemma split_not_nil (sep : N) (s : bytes) : Py.split sep s <> [].
Proof.
  destruct s as [|x r]; cbn; [discriminate|].
  destruct (N.eqb x sep); [discriminate|].
  destruct (Py.split sep r); discriminate.
Qed.

Lemma res_map_inr {A B : Type} (f : A -> result B) (l : list A) (ys : list B) :
  res_map f l = inr ys -> Forall2 (fun x y => f x = inr y) l ys.
Proof.
  revert ys; induction l as [|x l IH]; intros ys; cbn.
  - intros [= <-]. constructor.
  - destruct (f x) as [e|y] eqn:Ex; cbn; [discriminate|].
    destruct (res_map f l) as [e|ys'] eqn:El; cbn; [discriminate|].
    intros [= <-]. constructor; auto.
Qed.

Lemma strip_newline_one (icons : bytes) : strip_newline (icons ++ [c_nl]) = icons.
Proof.
  unfold strip_newline. rewrite last_last, N.eqb_refl, removelast_last.
  now destruct icons.
Qed.

Lemma strip_newline_none (icons : bytes) :
  List.last icons 0%N <> c_nl -> strip_newline icons = icons.
Proof.
  intros H. unfold strip_newline.
  destruct (N.eqb_spec (List.last icons 0%N) c_nl); [contradiction|].
  now rewrite andb_false_r.
Qed.

Lemma check_output_run (c : call) (h : history) :
  check_output c h
  = (if (oracle h c).1 =? 0 then inr (oracle h c).2 else inl CalledProcessError,
     h ++ [c]).
Proof.
  unfold check_output, bind, external, ret, raise.
  now destruct ((oracle h c).1 =? 0).
Qed.

Lemma iconImages_run (ico : str) (h : history) :
  iconImages ico h
  = (if (oracle h (IcotoolList ico)).1 =? 0
     then images_of_listing (oracle h (IcotoolList ico)).2
     else inl CalledProcessError,
     h ++ [IcotoolList ico]).
Proof.
  unfold iconImages, bind. rewrite check_output_run.
  now destruct ((oracle h (IcotoolList ico)).1 =? 0).
Qed.

Lemma images_of_listing_inr (icons : bytes) (images : list image) :
  images_of_listing icons = inr images ->
  images <> []
  /\ Forall2 (fun line i => image_of_line line = inr i)
       (Py.split c_nl (strip_newline icons)) images.
Proof.
  intros H%res_map_inr. split; [|exact H].
  intros ->. inversion H as [E|]. symmetry in E. now apply split_not_nil in E.
Qed.

Lemma split_sep_last (sep : N) (s : bytes) :
  Py.split sep (s ++ [sep]) = Py.split sep s ++ [[]].
Proof.
  induction s as [|x s IH]; cbn.
  - now rewrite N.eqb_refl.
  - rewrite IH. destruct (N.eqb x sep); [reflexivity|].
    pose proof (split_not_nil sep s) as Hne.
    destruct (Py.split sep s); [contradiction|reflexivity].
Qed.

Lemma res_map_last_inl {A B : Type} (f : A -> result B) (l : list A) (x : A) (e : exn) :
  f x = inl e -> exists e', res_map f (l ++ [x]) = inl e'.
Proof.
  intros Hx. induction l as [|y l [e' IH]]; cbn.
  - rewrite Hx. now exists e.
  - destruct (f y) as [ey|b]; cbn; [now exists ey|].
    rewrite IH. now exists e'.
Qed.

Lemma image_of_empty_line : image_of_line [] = inl KeyError.
Proof. reflexivity. Qed.

(** C6.  [iconImages] raises when [icotool] ends with a status other than
    zero and goes on with its output otherwise; one newline at the end of
    the output is dropped before the lines are split, and no more than one;
    an output without lines that can be read raises; and a catalog that is
    returned is never empty and has an image for every line. *)
Theorem iconImages_never_empty :
  (forall (ico : str) (h : history),
      (oracle h (IcotoolList ico)).1 <> 0 ->
      iconImages ico h = (inl CalledProcessError, h ++ [IcotoolList ico]))
  /\ (forall (ico : str) (h : history),
      (oracle h (IcotoolList ico)).1 = 0 ->
      iconImages ico h
      = (images_of_listing (oracle h (IcotoolList ico)).2, h ++ [IcotoolList ico]))
  /\ (forall icons : bytes,
      images_of_listing (icons ++ [c_nl]) = res_map image_of_line (Py.split c_nl icons))
  /\ (forall icons : bytes,
      List.last icons 0%N <> c_nl ->
      images_of_listing icons = res_map image_of_line (Py.split c_nl icons))
  /\ images_of_listing [] = inl KeyError
  /\ (forall icons : bytes,
      exists e, images_of_listing (icons ++ [c_nl; c_nl]) = inl e)
  /\ (forall (icons : bytes) (images : list image),
      images_of_listing icons = inr images ->
      images <> []
      /\ Forall2 (fun line i => image_of_line line = inr i)
           (Py.split c_nl (strip_newline icons)) images)
  /\ (forall (ico : str) (h h' : history) (images : list image),
      iconImages ico h = (inr images, h') -> images <> []).
Proof.
  repeat apply conj.
  - intros ico h Hrc. rewrite iconImages_run.
    destruct (Z.eqb_spec (oracle h (IcotoolList ico)).1 0); [contradiction|reflexivity].
  - intros ico h Hrc. rewrite iconImages_run, Hrc. reflexivity.
  - intros icons. unfold images_of_listing. now rewrite strip_newline_one.
  - intros icons H. unfold images_of_listing. now rewrite strip_newline_none.
  - reflexivity.
  - intros icons. unfold images_of_listing.
    change (icons ++ [c_nl; c_nl]) with (icons ++ [c_nl] ++ [c_nl]).
    rewrite app_assoc, strip_newline_one, split_sep_last.
    apply (res_map_last_inl _ _ _ KeyError). apply image_of_empty_line.
  - apply images_of_listing_inr.
  - intros ico h h' images. rewrite iconImages_run.
    destruct ((oracle h (IcotoolList ico)).1 =? 0); [|discriminate].
    intros [= H _]. now apply images_of_listing_inr in H.
Qed.

(** ** Properties of [iconExtract] *)

Lemma check_call_run (c : call) (h : history) :
  check_call c h
  = (if (oracle h c).1 =? 0 then inr tt else inl CalledProcessError, h ++ [c]).
Proof.
  unfold check_call, bind, external, ret, raise.
  now destruct ((oracle h c).1 =? 0).
Qed.

Lemma iconExtract_run (ico : str) (i : image) (path : str) (h : history) :
  iconExtract ico i path h
  = (if (oracle h (IcotoolExtract (INDEX i) ico path)).1 =? 0
     then inr (iconExtract_path ico i path) else inl CalledProcessError,
     h ++ [IcotoolExtract (INDEX i) ico path]).
Proof.
  unfold iconExtract, bind. rewrite check_call_run.
  now destruct ((oracle h (IcotoolExtract (INDEX i) ico path)).1 =? 0).
Qed.

(** C7.  The path [iconExtract] returns is [iconExtract_path], a function
    of the source, the image and the directory alone: two calls with the
    same three, from any two histories and whatever [icotool] did, return
    the same path when they return; so does a call followed by a second
    one; and a call returns as soon as [icotool] ends with status zero. *)
Theorem iconExtract_same_path (ico : str) (i : image) (path : str) :
  (forall (h1 h2 h1' h2' : history) (p1 p2 : str),
      iconExtract ico i path h1 = (inr p1, h1') ->
      iconExtract ico i path h2 = (inr p2, h2') ->
      p1 = p2 /\ p1 = iconExtract_path ico i path)
  /\ (forall (h h' : history) (p1 p2 : str),
      (do p1 <- iconExtract ico i path;
       do p2 <- iconExtract ico i path;
       ret (p1, p2)) h = (inr (p1, p2), h') ->
      p1 = p2)
  /\ (forall h : history,
      (oracle h (IcotoolExtract (INDEX i) ico path)).1 = 0 ->
      iconExtract ico i path h
      = (inr (iconExtract_path ico i path), h ++ [IcotoolExtract (INDEX i) ico path])).
Proof.
  repeat apply conj.
  - intros h1 h2 h1' h2' p1 p2. rewrite !iconExtract_run.
    destruct (_ =? 0); [|discriminate]. destruct (_ =? 0); [|discriminate].
    intros [= <- _] [= <- _]. split; reflexivity.
  - intros h h' p1 p2. unfold bind at 1. rewrite iconExtract_run.
    destruct (_ =? 0); [|discriminate].
    unfold bind. rewrite iconExtract_run.
    destruct (_ =? 0); [|discriminate].
    unfold ret. intros [= <- <- _]. reflexivity.
  - intros h H. rewrite iconExtract_run, H. reflexivity.
Qed.

Lemma str_eqb_eq (a b : str) : Py.str_eqb a b = true <-> a = b.
Proof. unfold Py.str_eqb. apply bool_decide_eq_true. Qed.

Lemma upper_ascii (s : str) :
  Forall (fun c => is_ascii c = true) s -> upper s = map ascii_upper s.
Proof.
  induction 1 as [|c s Hc _ IH]; [reflexivity|].
  unfold upper in *. cbn [flat_map map]. now rewrite Hc, IH.
Qed.

(** The period and a letter in upper case: a character becomes one of them
    in upper case exactly when it becomes its counterpart in lower case. *)
Lemma ascii_case_dot (c : char) : ascii_upper c = 46%N <-> ascii_lower c = 46%N.
Proof.
  unfold ascii_upper, ascii_lower, ascii_lower_letter, ascii_upper_letter.
  destruct (N.leb_spec 97 c), (N.leb_spec c 122), (N.leb_spec 65 c), (N.leb_spec c 90);
    cbn; lia.
Qed.

Lemma ascii_case_letter (c u : char) :
  (65 <= u <= 90)%N -> (ascii_upper c = u <-> ascii_lower c = (u + 32)%N).
Proof.
  unfold ascii_upper, ascii_lower, ascii_lower_letter, ascii_upper_letter.
  destruct (N.leb_spec 97 c), (N.leb_spec c 122), (N.leb_spec 65 c), (N.leb_spec c 90);
    cbn; lia.
Qed.

Lemma ascii_suffix_ico (s : str) :
  map ascii_upper s = lit ".ICO" <-> map ascii_lower s = lit ".ico".
Proof.
  change (lit ".ICO") with [46; 73; 67; 79]%N.
  change (lit ".ico") with [46; 73 + 32; 67 + 32; 79 + 32]%N.
  destruct s as [|c0 [|c1 [|c2 [|c3 [|c4 s]]]]]; cbn [map];
    try (split; discriminate).
  pose proof (ascii_case_dot c0) as D0.
  pose proof (ascii_case_letter c1 73%N) as D1.
  pose proof (ascii_case_letter c2 67%N) as D2.
  pose proof (ascii_case_letter c3 79%N) as D3.
  pure_proof.
  split; intros [= H0 H1 H2 H3]; repeat f_equal; intuition lia.
Qed.

(** C10.  The name of the extracted image starts with the base name of the
    source without its last four characters when these are [.ico] without
    regard to case, and with the whole base name of the source otherwise;
    on ASCII characters that test is the equality of the lowercased
    characters with [.ico]; a source ending in [.exe] keeps its
    extension. *)
Theorem iconExtract_path_suffix (ico : str) (i : image) (path : str) :
  (equal_ignoring_case (Py.last_n 4 ico) (lit ".ico") ->
   iconExtract_path ico i path
   = PosixPath.join path [PosixPath.basename (Py.drop_last_n 4 ico)] ++ output_suffix i)
  /\ (~ equal_ignoring_case (Py.last_n 4 ico) (lit ".ico") ->
      iconExtract_path ico i path
      = PosixPath.join path [PosixPath.basename ico] ++ output_suffix i)
  /\ (Forall (fun c => is_ascii c = true) (Py.last_n 4 ico) ->
      (equal_ignoring_case (Py.last_n 4 ico) (lit ".ico")
       <-> map ascii_lower (Py.last_n 4 ico) = lit ".ico"))
  /\ iconExtract_path (lit "/tmp/x/prog.exe") i path
     = PosixPath.join path [lit "prog.exe"] ++ output_suffix i.
Proof.
  unfold equal_ignoring_case.
  change (upper (lit ".ico")) with (lit ".ICO").
  repeat apply conj.
  - intros H. unfold iconExtract_path, getSuffix.
    apply str_eqb_eq in H. rewrite H. reflexivity.
  - intros H. unfold iconExtract_path, getSuffix.
    destruct (Py.str_eqb _ _) eqn:E; [|reflexivity].
    apply str_eqb_eq in E. contradiction.
  - intros H. rewrite (upper_ascii _ H). apply ascii_suffix_ico.
  - reflexivity.
Qed.

(** ** Properties of the name of the theme icon *)

Lemma normalize_char_spec (c : char) :
  normalize_char c = normalize_char_as_claimed c.
Proof.
  unfold normalize_char, normalize_char_as_claimed, isalnum, lower, is_ascii.
  destruct (N.ltb_spec c 128) as [Hlt|Hge]; cbn [andb orb existsb].
  - destruct (ascii_alnum c) eqn:Ea; cbn [andb orb]; [reflexivity|].
    destruct (N.eqb_spec c 95) as [->|?]; [reflexivity|].
    destruct (N.eqb_spec c 46) as [->|?]; reflexivity.
  - rewrite andb_false_r. cbn [orb].
    destruct (N.eqb_spec c 95) as [->|?]; [lia|].
    destruct (N.eqb_spec c 46) as [->|?]; [lia|]. reflexivity.
Qed.

(** C8.  The name of the icon in the theme is made from the decomposed
    string without its combining characters by replacing every character:
    an ASCII letter or digit by its lower case, the underscore and the
    period by themselves, and any other character by a hyphen. *)
Theorem normalize_name_chars (s : str) :
  normalize_name s
  = flat_map normalize_char_as_claimed
      (List.filter (fun c => combining c =? 0) (nfkd s))
  /\ (forall c : char,
      is_ascii c = true -> ascii_alnum c = true ->
      normalize_char c = [if ascii_upper_letter c then (c + 32)%N else c])
  /\ normalize_char 95%N = [95%N]
  /\ normalize_char 46%N = [46%N]
  /\ (forall c : char,
      is_ascii c && ascii_alnum c = false -> c <> 95%N -> c <> 46%N ->
      normalize_char c = [45%N]).
Proof.
  repeat apply conj.
  - unfold normalize_name. apply flat_map_ext. apply normalize_char_spec.
  - intros c Hc Ha. rewrite normalize_char_spec.
    unfold normalize_char_as_claimed. now rewrite Hc, Ha.
  - reflexivity.
  - reflexivity.
  - intros c Hc H1 H2. rewrite normalize_char_spec.
    unfold normalize_char_as_claimed. rewrite Hc.
    destruct (N.eqb_spec c 95); [contradiction|].
    destruct (N.eqb_spec c 46); [contradiction|]. reflexivity.
Qed.

(** ** Properties of the theme tree *)

(** *** The sort *)

Lemma theme_key_lt_iff (i j : image) :
  theme_key_lt i j = true
  <-> WIDTH i < WIDTH j
      \/ (WIDTH i = WIDTH j
          /\ (HEIGHT i < HEIGHT j
              \/ (HEIGHT i = HEIGHT j /\ BIT_DEPTH j < BIT_DEPTH i))).
Proof.
  unfold theme_key_lt.
  rewrite !orb_true_iff, !andb_true_iff, !orb_true_iff, !andb_true_iff,
    !Z.ltb_lt, !Z.eqb_eq.
  pure_proof. intuition lia.
Qed.

Lemma key_le_iff (i j : image) :
  key_le i j
  <-> WIDTH i < WIDTH j
      \/ (WIDTH i = WIDTH j
          /\ (HEIGHT i < HEIGHT j
              \/ (HEIGHT i = HEIGHT j /\ BIT_DEPTH j <= BIT_DEPTH i))).
Proof.
  unfold key_le. rewrite <- not_true_iff_false, theme_key_lt_iff. lia.
Qed.

Lemma key_le_trans (i j k : image) : key_le i j -> key_le j k -> key_le i k.
Proof. rewrite !key_le_iff. lia. Qed.

Lemma key_lt_le (i j : image) : theme_key_lt i j = true -> key_le i j.
Proof. rewrite key_le_iff, theme_key_lt_iff. lia. Qed.

Lemma insert_sorted_perm (x : image) (l : list image) :
  Permutation (Builtins.insert_sorted theme_key_lt x l) (x :: l).
Proof.
  induction l as [|y l IH]; cbn; [reflexivity|].
  destruct (theme_key_lt y x); [|reflexivity].
  rewrite IH. apply perm_swap.
Qed.

Lemma insert_sorted_sorted (x : image) (l : list image) :
  StronglySorted key_le l ->
  StronglySorted key_le (Builtins.insert_sorted theme_key_lt x l).
Proof.
  induction 1 as [|y l Hs IH Hy]; cbn.
  - repeat constructor.
  - destruct (theme_key_lt y x) eqn:E.
    + constructor; [exact IH|].
      rewrite (insert_sorted_perm x l). constructor; [now apply key_lt_le|exact Hy].
    + constructor; [now constructor|].
      constructor; [exact E|].
      eapply List.Forall_impl; [|exact Hy]. intros z. now apply key_le_trans.
Qed.

Lemma sort_images_perm (images : list image) :
  Permutation (sort_images images) images.
Proof.
  unfold sort_images. induction images as [|x l IH]; cbn; [reflexivity|].
  now rewrite insert_sorted_perm, IH.
Qed.

Lemma sort_images_sorted (images : list image) :
  StronglySorted key_le (sort_images images).
Proof.
  unfold sort_images. induction images as [|x l IH]; cbn; [constructor|].
  now apply insert_sorted_sorted.
Qed.

(** *** The loop *)

Lemma new_size_some (p i : image) : new_size (Some p) i = negb (same_size i p).
Proof. unfold new_size, same_size. now rewrite negb_andb. Qed.

Lemma placed_subset (prev : option image) (images : list image) (b : image) :
  In b (placed prev images) -> In b images.
Proof.
  revert prev; induction images as [|i rest IH]; intros prev; cbn; [trivial|].
  rewrite in_app_iff. intros [H|H]; [|right; eauto].
  destruct (new_size prev i); [|destruct H].
  destruct H as [<-|[]]. now left.
Qed.

Lemma filter_none {A : Type} (f : A -> bool) (l : list A) :
  (forall x, In x l -> f x = false) -> List.filter f l = [].
Proof.
  induction l as [|x l IH]; intros H; cbn; [reflexivity|].
  rewrite (H x (or_introl eq_refl)). apply IH. intros y Hy. apply H. now right.
Qed.

Lemma same_size_false_iff (i j : image) :
  same_size i j = false <-> WIDTH i <> WIDTH j \/ HEIGHT i <> HEIGHT j.
Proof.
  rewrite <- not_true_iff_false, same_size_iff. lia.
Qed.

(** In a sorted list that follows [p], the images of the size of [s] are
    not placed when [s] has the size of [p]; otherwise one of them is, the
    first, and it is the deepest of them. *)
Lemma placed_sorted (l : list image) :
  forall p : image,
    StronglySorted key_le l -> Forall (key_le p) l ->
    forall s : image,
      (same_size s p = true ->
       List.filter (fun i => same_size i s) (placed (Some p) l) = [])
      /\ (same_size s p = false ->
          forall m, In m l -> same_size m s = true ->
          exists b,
            List.filter (fun i => same_size i s) (placed (Some p) l) = [b]
            /\ In b l
            /\ forall m', In m' l -> same_size m' s = true ->
                          BIT_DEPTH m' <= BIT_DEPTH b).
Proof.
  induction l as [|i r IH]; intros p Hs Hp s.
  - split; [reflexivity|]. intros _ m [].
  - apply StronglySorted_inv in Hs as [Hs Hi].
    apply Forall_cons_iff in Hp as [Hpi Hpr].
    specialize (IH i Hs Hi s). destruct IH as [IH1 IH2].
    cbn [placed]. rewrite new_size_some.
    destruct (same_size i p) eqn:Eip; cbn [negb app].
    + (* the size of [prev]: the image is skipped *)
      apply same_size_iff in Eip.
      split.
      * intros Esp. apply IH1. apply same_size_iff in Esp. apply same_size_iff. lia.
      * intros Esp m [<-|Hm] Hms.
        { apply same_size_iff in Hms. apply same_size_false_iff in Esp. lia. }
        destruct (IH2) with (m := m) as (b & Eb & Hb & Hmax); auto.
        { apply same_size_false_iff in Esp. apply same_size_false_iff. lia. }
        exists b. split; [exact Eb|]. split; [now right|].
        intros m' [<-|Hm'] Hm's; [|auto].
        apply same_size_iff in Hm's. apply same_size_false_iff in Esp. lia.
    + (* a new size: the image is placed *)
      cbn [List.filter]. split.
      * intros Esp.
        assert (Eis : same_size i s = false).
        { apply same_size_iff in Esp. apply same_size_false_iff in Eip.
          apply same_size_false_iff. lia. }
        rewrite Eis. apply filter_none. intros x Hx%placed_subset.
        rewrite List.Forall_forall in Hi. specialize (Hi x Hx).
        apply key_le_iff in Hi, Hpi. apply same_size_iff in Esp.
        apply same_size_false_iff in Eip. apply same_size_false_iff. lia.
      * intros Esp m Hm Hms.
        destruct (same_size i s) eqn:Eis.
        { rewrite IH1 by (apply same_size_iff in Eis; apply same_size_iff; lia).
          exists i. split; [reflexivity|]. split; [now left|].
          intros m' [<-|Hm'] Hm's; [lia|].
          rewrite List.Forall_forall in Hi. specialize (Hi m' Hm').
          apply key_le_iff in Hi. apply same_size_iff in Eis, Hm's. lia. }
        destruct Hm as [<-|Hm]; [congruence|].
        destruct (IH2) with (m := m) as (b & Eb & Hb & Hmax); auto.
        { apply same_size_false_iff in Eis. apply same_size_false_iff. lia. }
        exists b. split; [exact Eb|]. split; [now right|].
        intros m' [<-|Hm'] Hm's; [congruence|auto].
Qed.

(** From the start of a sorted list: one image of every size is placed,
    the deepest of that size. *)
Lemma placed_sorted_start (l : list image) :
  StronglySorted key_le l ->
  forall m, In m l ->
  exists b,
    List.filter (fun i => same_size i m) (placed None l) = [b]
    /\ In b l
    /\ forall m', In m' l -> same_size m' m = true -> BIT_DEPTH m' <= BIT_DEPTH b.
Proof.
  destruct l as [|i r]; intros Hs m Hm; [destruct Hm|].
  apply StronglySorted_inv in Hs as [Hs Hi].
  destruct (placed_sorted r i Hs Hi m) as [H1 H2].
  cbn [placed new_size app List.filter].
  destruct (same_size i m) eqn:Eim.
  - rewrite H1 by (apply same_size_iff in Eim; apply same_size_iff; lia).
    exists i. split; [reflexivity|]. split; [now left|].
    intros m' [<-|Hm'] Hm's; [lia|].
    rewrite List.Forall_forall in Hi. specialize (Hi m' Hm').
    apply key_le_iff in Hi. apply same_size_iff in Eim, Hm's. lia.
  - destruct Hm as [<-|Hm].
    { exfalso. apply same_size_false_iff in Eim. lia. }
    destruct H2 with (m := m) as (b & Eb & Hb & Hmax); auto.
    { apply same_size_false_iff in Eim. apply same_size_false_iff. lia. }
    { apply same_size_iff. lia. }
    exists b. split; [exact Eb|]. split; [now right|].
    intros m' [<-|Hm'] Hm's; [congruence|auto].
Qed.

(** *** Decimal numbers in paths *)

Lemma lit_inj (a b : string) : lit a = lit b -> a = b.
Proof.
  unfold lit. intros H.
  rewrite <- (string_of_list_ascii_of_string a), <- (string_of_list_ascii_of_string b).
  f_equal. revert H.
  generalize (list_ascii_of_string a) (list_ascii_of_string b).
  induction l as [|x l IH]; intros [|y l']; cbn; try discriminate; [reflexivity|].
  intros [= Hxy Hl]. f_equal; [|now apply IH].
  rewrite <- (ascii_N_embedding x), <- (ascii_N_embedding y). now rewrite Hxy.
Qed.

Lemma to_uint_not_nil (p : positive) : Pos.to_uint p <> Decimal.Nil.
Proof.
  intros H. pose proof (DecimalPos.Unsigned.of_to p) as E.
  rewrite H in E. discriminate E.
Qed.

Lemma str_of_int_inj (a b : Z) : Py.str_of_int a = Py.str_of_int b -> a = b.
Proof.
  unfold Py.str_of_int. intros H%lit_inj.
  apply DecimalZ.to_int_inj.
  assert (Hn : forall z, Z.to_int z <> Decimal.Pos Decimal.Nil
                         /\ Z.to_int z <> Decimal.Neg Decimal.Nil).
  { intros [|p|p]; cbn; split; try discriminate;
      intros [= E]; now apply to_uint_not_nil in E. }
  pose proof (NilZero.isi (Z.to_int a) (proj1 (Hn a)) (proj2 (Hn a))) as Ea.
  pose proof (NilZero.isi (Z.to_int b) (proj1 (Hn b)) (proj2 (Hn b))) as Eb.
  rewrite H in Ea. congruence.
Qed.

Lemma string_of_uint_chars (d : Decimal.uint) :
  Forall decimal_char (lit (NilEmpty.string_of_uint d)).
Proof.
  induction d; cbn; constructor; try assumption; right; cbn; lia.
Qed.

Lemma str_of_int_chars (n : Z) : Forall decimal_char (Py.str_of_int n).
Proof.
  unfold Py.str_of_int.
  assert (Hu : forall d, Forall decimal_char (lit (NilZero.string_of_uint d))).
  { intros d. destruct d; try apply string_of_uint_chars.
    cbn. constructor; [right; cbn; lia|constructor]. }
  destruct (Z.to_int n) as [d|d]; cbn [NilZero.string_of_int]; [apply Hu|].
  change (lit (String "-" (NilZero.string_of_uint d)))
    with (45%N :: lit (NilZero.string_of_uint d)).
  constructor; [now left|apply Hu].
Qed.

(** Two strings cut at a character that neither of their first parts
    holds are cut at the same place. *)
Lemma app_sep_inj (c : char) (a a' b b' : str) :
  ~ In c a -> ~ In c a' -> a ++ c :: b = a' ++ c :: b' -> a = a' /\ b = b'.
Proof.
  revert a'; induction a as [|x a IH]; intros [|x' a'] Ha Ha'; cbn.
  - now intros [= ->].
  - intros [= <- _]. destruct Ha'. now left.
  - intros [= -> _]. destruct Ha. now left.
  - intros [= <- H]. destruct (IH a') as [-> ->]; auto.
    + intros Hin. apply Ha. now right.
    + intros Hin. apply Ha'. now right.
Qed.

Lemma decimal_no (c : char) (n : Z) :
  ~ decimal_char c -> ~ In c (Py.str_of_int n).
Proof.
  intros Hc Hin. pose proof (str_of_int_chars n) as H.
  rewrite List.Forall_forall in H. exact (Hc (H c Hin)).
Qed.

(** *** The paths of the theme *)

Lemma startswith_sep_false (b : str) :
  Forall (fun c => c <> PosixPath.sep) b -> Py.startswith [PosixPath.sep] b = false.
Proof.
  intros H. unfold Py.startswith, Py.str_eqb. apply bool_decide_eq_false.
  destruct H as [|c b Hc _]; cbn; [discriminate|]. intros [= E]. contradiction.
Qed.

Lemma endswith_sep_false (a b : str) :
  b <> [] -> Forall (fun c => c <> PosixPath.sep) b ->
  Py.endswith [PosixPath.sep] (a ++ b) = false.
Proof.
  intros Hb H. destruct (exists_last Hb) as (b' & d & ->).
  apply Forall_app in H as [_ Hd]. apply Forall_cons_iff in Hd as [Hd _].
  unfold Py.endswith, Py.last_n, Py.str_eqb. apply bool_decide_eq_false.
  rewrite app_assoc, length_app. cbn [length].
  replace (length (a ++ b') + 1 - 1)%nat with (length (a ++ b') + 0)%nat by lia.
  rewrite skipn_app, skipn_all2, Nat.add_0_r by lia.
  replace (length (a ++ b') - length (a ++ b'))%nat with 0%nat by lia.
  cbn. intros [= E]. contradiction.
Qed.

Lemma join2_sep (path b c : str) :
  Forall (fun c => c <> PosixPath.sep) b ->
  c <> [] -> Forall (fun c => c <> PosixPath.sep) c ->
  PosixPath.join2 (path ++ c) b = path ++ c ++ [PosixPath.sep] ++ b.
Proof.
  intros Hb Hc Hcs. unfold PosixPath.join2.
  rewrite (startswith_sep_false b Hb), (endswith_sep_false path c Hc Hcs).
  assert (Ht : Py.truthy (path ++ c) = true).
  { apply truthy_nonempty. intros [_ E]%app_eq_nil. contradiction. }
  rewrite Ht. cbn [negb orb]. now rewrite <- app_assoc.
Qed.

Lemma iconPathBase_eq :
  iconPathBase
  = Py.rstrip PosixPath.sep home ++ lit "/.local/share/icons/hicolor".
Proof.
  unfold iconPathBase, PosixPath.expanduser_tilde, Py.or_.
  now destruct (Py.rstrip PosixPath.sep home).
Qed.

Lemma no_sep_decimal (n : Z) : Forall (fun c => c <> PosixPath.sep) (Py.str_of_int n).
Proof.
  eapply List.Forall_impl; [|apply str_of_int_chars].
  intros c [->|H]; unfold PosixPath.sep; lia.
Qed.

Lemma no_sep_size_dir (i : image) : Forall (fun c => c <> PosixPath.sep) (size_dir i).
Proof.
  unfold size_dir. apply Forall_app. split; [apply no_sep_decimal|].
  apply Forall_app. split; [|apply no_sep_decimal].
  repeat constructor. discriminate.
Qed.

Lemma no_sep_lit (s : string) :
  forallb (fun c => negb (N.eqb c PosixPath.sep)) (lit s) = true ->
  Forall (fun c => c <> PosixPath.sep) (lit s).
Proof.
  intros H. apply List.Forall_forall. intros c Hc.
  rewrite forallb_forall in H. specialize (H c Hc).
  now apply negb_true_iff, N.eqb_neq in H.
Qed.

Lemma iconPath_eq (i : image) :
  iconPath i = iconPathBase ++ lit "/" ++ size_dir i ++ lit "/apps".
Proof.
  unfold iconPath. fold (size_dir i). cbn [PosixPath.join fold_left].
  rewrite iconPathBase_eq.
  change (lit "/.local/share/icons/hicolor")
    with (lit "/.local/share/icons/" ++ lit "hicolor").
  rewrite app_assoc.
  rewrite (join2_sep _ (size_dir i) (lit "hicolor"));
    [|apply no_sep_size_dir|discriminate|now apply no_sep_lit].
  replace (lit "hicolor" ++ [PosixPath.sep] ++ size_dir i)
    with ((lit "hicolor" ++ [PosixPath.sep]) ++ size_dir i) by now rewrite <- app_assoc.
  rewrite app_assoc.
  rewrite (join2_sep _ (lit "apps") (size_dir i));
    [|now apply no_sep_lit| |apply no_sep_size_dir].
  - rewrite <- !app_assoc. reflexivity.
  - unfold size_dir. intros [_ [E _]%app_eq_nil]%app_eq_nil. discriminate E.
Qed.

Lemma theme_file_join (name : str) (i : image) :
  PosixPath.join (iconPath i) [iconDestination name ++ lit ".png"]
  = theme_file (iconDestination name) i.
Proof.
  cbn [PosixPath.join fold_left]. rewrite iconPath_eq.
  unfold PosixPath.join2.
  replace (iconPathBase ++ lit "/" ++ size_dir i ++ lit "/apps")
    with ((iconPathBase ++ lit "/" ++ size_dir i ++ lit "/") ++ lit "apps")
    by (rewrite <- !app_assoc; reflexivity).
  rewrite endswith_sep_false; [|discriminate|now apply no_sep_lit].
  assert (Ht : Py.truthy ((iconPathBase ++ lit "/" ++ size_dir i ++ lit "/") ++ lit "apps")
               = true).
  { apply truthy_nonempty. intros [_ E]%app_eq_nil. discriminate E. }
  rewrite Ht. cbn [negb orb].
  unfold theme_file. rewrite <- !app_assoc. reflexivity.
Qed.

Lemma theme_file_inj (dest : str) (i j : image) :
  theme_file dest i = theme_file dest j -> same_size i j = true.
Proof.
  unfold theme_file, size_dir. rewrite <- !app_assoc.
  intros H%app_inv_head%app_inv_head.
  change (lit "x" ++ ?r) with (120%N :: r) in H.
  apply app_sep_inj in H as [Hw H];
    [|apply decimal_no; unfold decimal_char; lia..].
  change (lit "/apps/" ++ ?r) with (47%N :: lit "apps/" ++ r) in H.
  apply app_sep_inj in H as [Hh _];
    [|apply decimal_no; unfold decimal_char; lia..].
  apply same_size_iff. split; now apply str_of_int_inj.
Qed.

(** *** The calls of the loop *)

Lemma os_call_run (c : call) (h : history) :
  os_call c h = (if (oracle h c).1 =? 0 then inr tt else inl OSError, h ++ [c]).
Proof.
  unfold os_call, bind, external, ret, raise.
  now destruct ((oracle h c).1 =? 0).
Qed.

(** When the body of the [if] returns, its three calls were made. *)
Lemma place_icon_inr (iconSource dest : str) (i : image) (h h' : history) :
  place_icon iconSource dest i h = (inr tt, h') ->
  h' = h ++ place_calls iconSource dest i.
Proof.
  unfold place_icon, place_calls, bind.
  rewrite os_call_run. destruct (_ =? 0); [|discriminate].
  rewrite iconExtract_run. destruct (_ =? 0); [|discriminate].
  rewrite os_call_run. destruct (_ =? 0); [|discriminate].
  intros [= <-]. now rewrite <- !app_assoc.
Qed.

Lemma place_icon_total (iconSource dest : str) (i : image) (h : history) :
  (forall h c, (oracle h c).1 = 0) ->
  place_icon iconSource dest i h = (inr tt, h ++ place_calls iconSource dest i).
Proof.
  intros Hok. unfold place_icon, place_calls, bind.
  rewrite os_call_run, Hok. cbn [Z.eqb].
  rewrite iconExtract_run, Hok. cbn [Z.eqb].
  rewrite os_call_run, Hok. cbn [Z.eqb].
  now rewrite <- !app_assoc.
Qed.

Lemma theme_loop_inr (iconSource dest : str) (images : list image) :
  forall (prev : option image) (h h' : history),
    theme_loop iconSource dest prev images h = (inr tt, h') ->
    h' = h ++ flat_map (place_calls iconSource dest) (placed prev images).
Proof.
  induction images as [|i rest IH]; intros prev h h'; cbn [theme_loop placed].
  - intros [= <-]. cbn. now rewrite app_nil_r.
  - unfold bind at 1. destruct (new_size prev i).
    + destruct (place_icon iconSource dest i h) as [[e|[]] h1] eqn:E; [discriminate|].
      apply place_icon_inr in E. intros H%IH. subst.
      cbn [app flat_map]. now rewrite <- app_assoc.
    + unfold ret at 1. intros H%IH. exact H.
Qed.

Lemma theme_loop_total (iconSource dest : str) (images : list image) :
  (forall h c, (oracle h c).1 = 0) ->
  forall (prev : option image) (h : history),
    theme_loop iconSource dest prev images h
    = (inr tt, h ++ flat_map (place_calls iconSource dest) (placed prev images)).
Proof.
  intros Hok. induction images as [|i rest IH]; intros prev h; cbn [theme_loop placed].
  - cbn. now rewrite app_nil_r.
  - unfold bind at 1. destruct (new_size prev i).
    + rewrite place_icon_total by exact Hok. rewrite IH.
      cbn [app flat_map]. now rewrite <- app_assoc.
    + unfold ret at 1. now rewrite IH.
Qed.

(** The moves to the file of a size are those of the placed images of
    that size. *)
Lemma moves_to_theme_file (iconSource name : str) (m : image) (chosen : list image) :
  List.filter (moves_to (theme_file (iconDestination name) m))
    (flat_map (place_calls iconSource (iconDestination name)) chosen)
  = map (fun b => Move (iconExtract_path iconSource b temporary)
                       (theme_file (iconDestination name) m))
      (List.filter (fun i => same_size i m) chosen).
Proof.
  induction chosen as [|i chosen IH]; [reflexivity|].
  cbn [flat_map List.filter]. rewrite List.filter_app, IH.
  unfold place_calls at 1. cbn [List.filter moves_to].
  rewrite theme_file_join.
  destruct (Py.str_eqb _ _) eqn:E.
  - apply str_eqb_eq in E. rewrite (theme_file_inj _ _ _ E). cbn [map app].
    now rewrite E.
  - destruct (same_size i m) eqn:Es; [|reflexivity].
    apply same_size_iff in Es as [Hw Hh].
    assert (E' : theme_file (iconDestination name) i
                 = theme_file (iconDestination name) m).
    { unfold theme_file, size_dir. now rewrite Hw, Hh. }
    apply str_eqb_eq in E'. congruence.
Qed.

(** C4 (as stated).  The catalog is sorted by width, height and falling bit
    depth.  When the loop over the sorted catalog returns, it has made the
    calls of [place_calls] for a list of chosen images of the catalog; for
    every image [m] of the catalog exactly one chosen image has the width
    and the height of [m], and no image of that size in the catalog is
    deeper; the only move to [<base>/<width>x<height>/apps/<name>.png] for
    the size of [m] takes the image extracted from that chosen one; the
    files of two sizes differ; and the loop returns when every call
    succeeds. *)
Theorem buildThemeTree_one_file_per_size
    (images : list image) (iconSource name : str) :
  (Permutation (sort_images images) images
   /\ StronglySorted key_le (sort_images images))
  /\ (forall h h' : history,
      buildThemeTree images iconSource (iconDestination name) h = (inr tt, h') ->
      exists chosen : list image,
        h' = h ++ flat_map (place_calls iconSource (iconDestination name)) chosen
        /\ (forall b, In b chosen -> In b images)
        /\ forall m, In m images ->
           exists b,
             List.filter (fun i => same_size i m) chosen = [b]
             /\ In b images
             /\ (forall m', In m' images -> same_size m' m = true ->
                            BIT_DEPTH m' <= BIT_DEPTH b)
             /\ List.filter (moves_to (theme_file (iconDestination name) m))
                  (flat_map (place_calls iconSource (iconDestination name)) chosen)
                = [Move (iconExtract_path iconSource b temporary)
                        (theme_file (iconDestination name) m)])
  /\ (forall i : image,
      PosixPath.join (iconPath i) [iconDestination name ++ lit ".png"]
      = iconPathBase ++ lit "/"
          ++ Py.str_of_int (WIDTH i) ++ lit "x" ++ Py.str_of_int (HEIGHT i)
          ++ lit "/apps/" ++ iconDestination name ++ lit ".png")
  /\ (forall i j : image,
      theme_file (iconDestination name) i = theme_file (iconDestination name) j ->
      WIDTH i = WIDTH j /\ HEIGHT i = HEIGHT j)
  /\ ((forall h c, (oracle h c).1 = 0) ->
      forall h : history,
      exists h', buildThemeTree images iconSource (iconDestination name) h
                 = (inr tt, h')).
Proof.
  repeat apply conj.
  - apply sort_images_perm.
  - apply sort_images_sorted.
  - intros h h' H. unfold buildThemeTree in H. apply theme_loop_inr in H.
    exists (placed None (sort_images images)).
    split; [exact H|]. split.
    + intros b Hb%placed_subset.
      now apply (Permutation_in _ (sort_images_perm images)).
    + intros m Hm.
      assert (Hm' : In m (sort_images images)).
      { now apply (Permutation_in _ (Permutation_sym (sort_images_perm images))). }
      destruct (placed_sorted_start _ (sort_images_sorted images) m Hm')
        as (b & Eb & Hb & Hmax).
      exists b. split; [exact Eb|]. split.
      { now apply (Permutation_in _ (sort_images_perm images)). }
      split.
      { intros m' Hm'in. apply Hmax.
        now apply (Permutation_in _ (Permutation_sym (sort_images_perm images))). }
      rewrite moves_to_theme_file, Eb. reflexivity.
  - intros i. rewrite theme_file_join. unfold theme_file, size_dir.
    now rewrite <- !app_assoc.
  - intros i j H%theme_file_inj. now apply same_size_iff.
  - intros Hok h. unfold buildThemeTree. rewrite theme_loop_total by exact Hok.
    eexists; reflexivity.
Qed.
(** ** Further properties of [escape] *)

Lemma dq_escape_char_no_control (c x : char) :
  In x (dq_escape_char c) -> x <> c_tab /\ x <> c_nl.
Proof.
  pure_proof. unfold dq_escape_char, c_tab, c_nl, c_dquote, c_backslash. cbn.
  destruct (N.eqb_spec c 9) as [->|?]; [cbn; intuition lia|].
  destruct (N.eqb_spec c 10) as [->|?]; [cbn; intuition lia|].
  destruct (_ || _); cbn; intuition lia.
Qed.

Lemma existsb_false_In {A : Type} (p : A -> bool) (l : list A) (x : A) :
  existsb p l = false -> In x l -> p x = false.
Proof.
  intros H Hx. destruct (p x) eqn:E; [|reflexivity].
  rewrite <- H. symmetry. apply existsb_true_In. eauto.
Qed.

Lemma not_sq_illegal_no_control (x : char) :
  is_sq_illegal x = false -> x <> c_tab /\ x <> c_nl.
Proof.
  intros H. split; intros ->; discriminate H.
Qed.

Lemma escape_chars_no_control (text : str) (allow : bool) (x : char) :
  In x (escape text allow) -> x <> c_tab /\ x <> c_nl.
Proof.
  rewrite escape_cases.
  destruct (allow && negb (existsb is_sq_illegal text) && existsb is_reserved text)
    eqn:Esq.
  - apply andb_true_iff in Esq as [[_ Hs]%andb_true_iff _].
    apply negb_true_iff in Hs.
    cbn [app]. intros [<-|[Hx|[<-|[]]]%in_app_or]; try (split; discriminate).
    apply not_sq_illegal_no_control. eapply existsb_false_In; eauto.
  - destruct (existsb is_sq_illegal text || existsb is_reserved text) eqn:Eany.
    + cbn [app]. intros [<-|[Hx|[<-|[]]]%in_app_or]; try (split; discriminate).
      apply in_flat_map in Hx as (c & _ & Hx).
      eapply dq_escape_char_no_control; eauto.
    + apply orb_false_iff in Eany as [Hs _]. intros Hx.
      apply not_sq_illegal_no_control. eapply existsb_false_In; eauto.
Qed.

(** The token [escape] returns holds no tab and no newline, whatever the
    text: a tab or a newline of the text comes back as a backslash and a
    letter. *)
Theorem escape_no_tab_newline (text : str) (allow : bool) :
  ~ In c_tab (escape text allow) /\ ~ In c_nl (escape text allow).
Proof.
  pure_proof.
  split; intros Hin; apply escape_chars_no_control in Hin; tauto.
Qed.

(** The text comes back unchanged exactly when it holds no character that
    is unsafe in single quotes and no reserved character. *)
Theorem escape_unchanged_iff (text : str) (allow : bool) :
  escape text allow = text
  <-> forall c, In c text -> is_sq_illegal c = false /\ is_reserved c = false.
Proof.
  rewrite escape_cases. split.
  - intros H.
    destruct (allow && negb (existsb is_sq_illegal text) && existsb is_reserved text).
    { apply (f_equal (@length _)) in H. rewrite !length_app in H. cbn in H. lia. }
    destruct (existsb is_sq_illegal text || existsb is_reserved text) eqn:Eany.
    + exfalso. clear Eany. revert H. cbn [app].
      assert (L : forall t, (length t <= length (flat_map dq_escape_char t))%nat).
      { induction t as [|c t IH]; cbn [flat_map]; [lia|].
        rewrite length_app. cbn [length].
        assert (1 <= length (dq_escape_char c))%nat; [|lia].
        unfold dq_escape_char.
        destruct (N.eqb c c_tab); [cbn; lia|].
        destruct (N.eqb c c_nl); [cbn; lia|].
        destruct (existsb _ _); cbn; lia. }
      intros H. apply (f_equal (@length _)) in H. cbn [length] in H.
      rewrite length_app in H. specialize (L text). cbn in H. lia.
    + apply orb_false_iff in Eany as [Hs Hr]. intros c Hc.
      split; eapply existsb_false_In; eauto.
  - intros H.
    assert (Hs : existsb is_sq_illegal text = false).
    { destruct (existsb is_sq_illegal text) eqn:E; [|reflexivity].
      apply existsb_true_In in E as (c & Hc & E). destruct (H c Hc). congruence. }
    assert (Hr : existsb is_reserved text = false).
    { destruct (existsb is_reserved text) eqn:E; [|reflexivity].
      apply existsb_true_In in E as (c & Hc & E). destruct (H c Hc). congruence. }
    rewrite Hs, Hr. now rewrite andb_false_r.
Qed.


(** One escaped character is never empty and tells which character it
    stands for, whatever follows it. *)
Lemma dq_escape_char_cut (c d : char) (r s : str) :
  dq_escape_char c ++ r = dq_escape_char d ++ s -> c = d /\ r = s.
Proof.
  pure_proof.
  unfold dq_escape_char, c_tab, c_nl, c_dquote, c_backslash. cbn.
  destruct (N.eqb_spec c 9) as [->|?]; [|destruct (N.eqb_spec c 10) as [->|?];
    [|destruct (N.eqb_spec c 34) as [->|?]; [|destruct (N.eqb_spec c 96) as [->|?];
    [|destruct (N.eqb_spec c 36) as [->|?]; [|destruct (N.eqb_spec c 92) as [->|?]]]]]];
  (destruct (N.eqb_spec d 9) as [->|?]; [|destruct (N.eqb_spec d 10) as [->|?];
    [|destruct (N.eqb_spec d 34) as [->|?]; [|destruct (N.eqb_spec d 96) as [->|?];
    [|destruct (N.eqb_spec d 36) as [->|?]; [|destruct (N.eqb_spec d 92) as [->|?]]]]]]);
  cbn; intros [= *]; subst; try lia; split; congruence.
Qed.

Lemma dq_escape_inj (a b : str) :
  flat_map dq_escape_char a = flat_map dq_escape_char b -> a = b.
Proof.
  revert b; induction a as [|c a IH]; intros [|d b]; cbn [flat_map].
  - reflexivity.
  - intros H. exfalso. revert H. unfold dq_escape_char.
    destruct (N.eqb d c_tab); [discriminate|].
    destruct (N.eqb d c_nl); [discriminate|].
    destruct (existsb _ _); discriminate.
  - intros H. exfalso. revert H. unfold dq_escape_char.
    destruct (N.eqb c c_tab); [discriminate|].
    destruct (N.eqb c c_nl); [discriminate|].
    destruct (existsb _ _); discriminate.
  - intros [-> H]%dq_escape_char_cut. f_equal. now apply IH.
Qed.

(** Two texts with the same token are the same text, also when one was
    escaped with single quotes allowed and the other without. *)
Theorem escape_injective (a b : str) (allow_a allow_b : bool) :
  escape a allow_a = escape b allow_b -> a = b.
Proof.
  rewrite !escape_cases.
  set (sa := existsb is_sq_illegal a). set (ra := existsb is_reserved a).
  set (sb := existsb is_sq_illegal b). set (rb := existsb is_reserved b).
  assert (Hplain : forall t x r,
             existsb is_sq_illegal t || existsb is_reserved t = false ->
             t = x :: r -> x <> c_squote /\ x <> c_dquote).
  { intros t x r [Hs Hr]%orb_false_iff ->. cbn in Hs, Hr.
    apply orb_false_iff in Hs as [Hs _]. apply orb_false_iff in Hr as [Hr _].
    split; intros ->; discriminate. }
  destruct (allow_a && negb sa && ra) eqn:Ea; destruct (allow_b && negb sb && rb) eqn:Eb.
  - cbn [app]. intros [= H]. now apply app_inv_tail in H.
  - destruct (sb || rb) eqn:Eb'; cbn [app].
    + discriminate.
    + intros H. symmetry in H. destruct (Hplain _ _ _ Eb' H). congruence.
  - destruct (sa || ra) eqn:Ea'; cbn [app].
    + discriminate.
    + intros H. destruct (Hplain _ _ _ Ea' H). congruence.
  - destruct (sa || ra) eqn:Ea'; destruct (sb || rb) eqn:Eb'; cbn [app].
    + intros [= H]. apply app_inv_tail in H. now apply dq_escape_inj.
    + intros H. symmetry in H. destruct (Hplain _ _ _ Eb' H). congruence.
    + intros H. destruct (Hplain _ _ _ Ea' H). congruence.
    + trivial.
Qed.


(** ** Further properties of [commandLine] *)

Lemma one_line_app (a b : str) : one_line a -> one_line b -> one_line (a ++ b).
Proof.
  pure_proof. unfold one_line. rewrite !in_app_iff. tauto.
Qed.

Lemma one_line_lit (s : string) :
  forallb (fun c => negb (N.eqb c c_tab) && negb (N.eqb c c_nl)) (lit s) = true ->
  one_line (lit s).
Proof.
  intros H. rewrite forallb_forall in H.
  split; intros Hin; apply H in Hin; discriminate Hin.
Qed.

Lemma one_line_escape (text : str) (allow : bool) : one_line (escape text allow).
Proof.
  pure_proof.
  split; intros Hin; apply escape_chars_no_control in Hin; tauto.
Qed.

Lemma one_line_inner_command (f : form) :
  one_line (wine_text f) -> one_line (appParams_text f) -> one_line (inner_command f).
Proof.
  intros Hw Hp. unfold inner_command.
  assert (He : one_line (wine_text f ++ lit " "
                         ++ escape (relative_exe (executable_path f))
                              (Py.truthy (needsSh f)))).
  { repeat apply one_line_app; auto using one_line_escape.
    now apply one_line_lit. }
  assert (He' : one_line
                  (if negb (Py.str_eqb defaultWinePrefix (prefix_path f))
                   then lit "env "
                          ++ escape (lit "WINEPREFIX=" ++ prefix_path f)
                               (Py.truthy (needsSh f))
                          ++ lit " "
                          ++ wine_text f ++ lit " "
                          ++ escape (relative_exe (executable_path f))
                               (Py.truthy (needsSh f))
                   else wine_text f ++ lit " "
                          ++ escape (relative_exe (executable_path f))
                               (Py.truthy (needsSh f)))).
  { destruct (negb _); [|exact He].
    repeat apply one_line_app; auto using one_line_escape;
      now apply one_line_lit. }
  cbv zeta. destruct (negb (Py.str_eqb (appParams_text f) [])); [|exact He'].
  repeat apply one_line_app; auto. now apply one_line_lit.
Qed.

(** The command of the launcher is one line: it holds no tab and no newline
    when the shell wrapping is used, whatever the fields hold, and also
    without it when the wine command and the application parameters hold
    none.  The paths of the executable and of the prefix may hold any
    character. *)
Theorem commandLine_one_line (f : form) :
  (Py.truthy (needsSh f) = true -> one_line (commandLine f))
  /\ (one_line (wine_text f) -> one_line (appParams_text f) ->
      one_line (commandLine f)).
Proof.
  unfold commandLine. split.
  - intros ->. apply one_line_app; [now apply one_line_lit|apply one_line_escape].
  - intros Hw Hp. destruct (Py.truthy (needsSh f)).
    + apply one_line_app; [now apply one_line_lit|apply one_line_escape].
    + now apply one_line_inner_command.
Qed.


(** ** Properties of the path of the executable *)

Lemma char_in_In (c : char) (s : str) : Py.char_in c s = true <-> In c s.
Proof.
  unfold Py.char_in. rewrite existsb_true_In. split.
  - intros (x & Hx & E). apply N.eqb_eq in E. now subst.
  - intros H. exists c. split; [exact H|apply N.eqb_refl].
Qed.

Lemma char_in_false (c : char) (s : str) : ~ In c s -> Py.char_in c s = false.
Proof.
  intros H. destruct (Py.char_in c s) eqn:E; [|reflexivity].
  now apply char_in_In in E.
Qed.

Lemma head_of_app_sep (d f : str) :
  ~ In PosixPath.sep f ->
  PosixPath.head_of (d ++ PosixPath.sep :: f) = d ++ [PosixPath.sep].
Proof.
  intros Hf. induction d as [|x d IH]; cbn [app PosixPath.head_of].
  - now rewrite (char_in_false _ _ Hf), N.eqb_refl.
  - assert (E : Py.char_in PosixPath.sep (d ++ PosixPath.sep :: f) = true).
    { apply char_in_In, in_or_app. right. now left. }
    now rewrite E, IH.
Qed.

Lemma head_of_no_sep (f : str) : ~ In PosixPath.sep f -> PosixPath.head_of f = [].
Proof.
  induction f as [|x f IH]; intros Hf; cbn [PosixPath.head_of]; [reflexivity|].
  rewrite char_in_false by (intros H; apply Hf; now right).
  destruct (N.eqb_spec x PosixPath.sep) as [->|_]; [|reflexivity].
  destruct Hf. now left.
Qed.

Lemma rstrip_snoc_eq (c : char) (d : str) : Py.rstrip c (d ++ [c]) = Py.rstrip c d.
Proof.
  induction d as [|x d IH]; cbn [app Py.rstrip].
  - now rewrite N.eqb_refl.
  - now rewrite IH.
Qed.

Lemma rstrip_snoc_ne (c x : char) (d : str) :
  x <> c -> Py.rstrip c (d ++ [x]) = d ++ [x].
Proof.
  intros Hx. induction d as [|y d IH]; cbn [app Py.rstrip].
  - destruct (N.eqb_spec x c); [contradiction|reflexivity].
  - rewrite IH. destruct d; reflexivity.
Qed.

Lemma dirname_of_file (d f : str) (x : char) :
  x <> PosixPath.sep -> ~ In PosixPath.sep f ->
  PosixPath.dirname (d ++ [x] ++ [PosixPath.sep] ++ f) = d ++ [x].
Proof.
  intros Hx Hf. unfold PosixPath.dirname.
  replace (d ++ [x] ++ [PosixPath.sep] ++ f) with ((d ++ [x]) ++ PosixPath.sep :: f)
    by now rewrite <- app_assoc.
  rewrite (head_of_app_sep _ _ Hf).
  assert (Ht : Py.truthy ((d ++ [x]) ++ [PosixPath.sep]) = true).
  { destruct d; reflexivity. }
  assert (Hall : forallb (N.eqb PosixPath.sep) ((d ++ [x]) ++ [PosixPath.sep]) = false).
  { rewrite !forallb_app. cbn [forallb].
    destruct (N.eqb_spec PosixPath.sep x) as [E|_]; [now symmetry in E|].
    now rewrite andb_false_r. }
  rewrite Ht, Hall. cbn [negb andb].
  now rewrite rstrip_snoc_eq, rstrip_snoc_ne.
Qed.

Lemma skipn_nth_error {A : Type} (l : list A) (n : nat) (x : A) :
  nth_error l n = Some x -> skipn n l = x :: skipn (n + 1) l.
Proof.
  revert n; induction l as [|y l IH]; intros [|n]; cbn; try discriminate.
  - now intros [= ->].
  - apply IH.
Qed.

(** The executable in the command is the path of the executable, or what
    follows its directory and a slash; the file of a directory is given by
    its name alone; a path without directory and a file of the root
    directory are left as they are. *)
Theorem relative_exe_cases :
  (forall exe : str,
      relative_exe exe = exe
      \/ exe = PosixPath.dirname exe ++ [PosixPath.sep] ++ relative_exe exe)
  /\ (forall (d f : str) (x : char),
      x <> PosixPath.sep -> ~ In PosixPath.sep f ->
      relative_exe (d ++ [x] ++ [PosixPath.sep] ++ f) = f)
  /\ (forall f : str,
      ~ In PosixPath.sep f ->
      relative_exe f = f /\ relative_exe (PosixPath.sep :: f) = PosixPath.sep :: f).
Proof.
  repeat apply conj.
  - intros exe. unfold relative_exe.
    destruct (_ && _) eqn:E; [right|now left].
    apply andb_true_iff in E as [[_ Hp]%andb_true_iff Hs].
    apply str_eqb_eq in Hp. apply bool_decide_eq_true in Hs.
    rewrite <- (firstn_skipn (length (PosixPath.dirname exe)) exe) at 1.
    rewrite Hp, (skipn_nth_error _ _ _ Hs). reflexivity.
  - intros d f x Hx Hf. unfold relative_exe.
    rewrite (dirname_of_file d f x Hx Hf).
    replace (d ++ [x] ++ [PosixPath.sep] ++ f) with ((d ++ [x]) ++ PosixPath.sep :: f)
      by now rewrite <- app_assoc.
    assert (E1 : (length (d ++ [x]) <? length ((d ++ [x]) ++ PosixPath.sep :: f))%nat
                 = true).
    { apply Nat.ltb_lt. rewrite (length_app (d ++ [x])). cbn [length]. lia. }
    assert (E2 : Py.str_eqb (firstn (length (d ++ [x])) ((d ++ [x]) ++ PosixPath.sep :: f))
                   (d ++ [x]) = true).
    { apply str_eqb_eq. rewrite firstn_app, firstn_all, Nat.sub_diag. cbn.
      now rewrite app_nil_r. }
    assert (E3 : nth_error ((d ++ [x]) ++ PosixPath.sep :: f) (length (d ++ [x]))
                 = Some PosixPath.sep).
    { rewrite nth_error_app2, Nat.sub_diag by lia. reflexivity. }
    rewrite E1, E2. rewrite (bool_decide_eq_true_2 _ E3). cbn [andb].
    rewrite skipn_app, skipn_all2 by lia.
    replace (length (d ++ [x]) + 1 - length (d ++ [x]))%nat with 1%nat by lia.
    reflexivity.
  - intros f Hf. split.
    + unfold relative_exe, PosixPath.dirname. rewrite (head_of_no_sep f Hf).
      cbn [Py.truthy andb length firstn].
      destruct f as [|y f]; [reflexivity|].
      cbn [length nth_error]. rewrite bool_decide_eq_false_2; [now rewrite !andb_false_r|].
      intros [= ->]. apply Hf. now left.
    + unfold relative_exe, PosixPath.dirname.
      change (PosixPath.sep :: f) with ([] ++ PosixPath.sep :: f).
      rewrite (head_of_app_sep [] f Hf). cbn [app Py.truthy forallb length].
      rewrite N.eqb_refl. cbn [andb negb].
      destruct f as [|y f]; [reflexivity|].
      cbn [length nth_error firstn]. rewrite bool_decide_eq_false_2;
        [now rewrite !andb_false_r|].
      intros [= ->]. apply Hf. now left.
Qed.


(** ** Further properties of the icon pipeline *)

(** *** The cases of [extractIcoFile] *)

(** [extractIcoFile] makes the listing call and fails with it, or goes on
    with the catalog of the listing, which is not empty.  When a key of the
    selection is not computed, it raises [OverflowError] and makes no other
    call.  Otherwise an image of the catalog is selected, the extraction
    call for the index of that image is made, and the path of that image is
    returned unless the extraction fails. *)
Theorem extractIcoFile_cases (ico : str) (h h' : history) (r : result str) :
  extractIcoFile ico h = (r, h') ->
  (exists e, iconImages ico h = (inl e, h') /\ r = inl e
             /\ h' = h ++ [IcotoolList ico])
  \/ (exists images,
        iconImages ico h = (inr images, h ++ [IcotoolList ico])
        /\ images <> []
        /\ (((exists m, In m images /\ score ICON_SIZE m = inl OverflowError)
             /\ selectBest ICON_SIZE images = inl OverflowError
             /\ r = inl OverflowError
             /\ h' = h ++ [IcotoolList ico])
            \/ (exists best,
                  Forall (scored ICON_SIZE) images
                  /\ selectBest ICON_SIZE images = inr best
                  /\ In best images
                  /\ h' = h ++ [IcotoolList ico;
                                IcotoolExtract (INDEX best) ico temporary]
                  /\ (r = inr (iconExtract_path ico best temporary)
                      \/ r = inl CalledProcessError)))).
Proof.
  unfold extractIcoFile, bind.
  destruct (iconImages ico h) as [[e|images] h1] eqn:E.
  - intros [= <- <-]. left. exists e.
    rewrite iconImages_run in E. injection E as _ <-. auto.
  - pose proof E as E'. rewrite iconImages_run in E'. injection E' as Himg <-.
    assert (Hne : images <> []).
    { destruct (_ =? 0); [|discriminate]. now apply images_of_listing_inr in Himg. }
    right. exists images. split; [reflexivity|]. split; [exact Hne|].
    unfold lift in *.
    destruct (res_map (score ICON_SIZE) images) as [e|keys] eqn:Ek.
    + destruct (selectBest_overflow _ _ _ Ek) as [Eb Hm].
      rewrite Eb in *. injection H as <- <-. left. auto.
    + destruct (selectBest_scored _ _ _ Hne Ek) as (best & kb & Eb & Hin & _).
      rewrite Eb, iconExtract_run in H. injection H as <- <-. right.
      exists best. split.
      { apply List.Forall_forall. intros m Hm.
        destruct (combine_keys _ _ _ Ek) as [H1 H2].
        destruct (H2 m Hm) as [k Hk]. exists k. now apply (H1 m k). }
      repeat split; auto.
      * now rewrite <- app_assoc.
      * match goal with |- context [if ?b then _ else _] => destruct b end; auto.
Qed.


(** *** The loop as a plan of calls *)

Lemma run_plan_app (a b : list call) :
  forall h : history,
    run_plan h (a ++ b)
    = match run_plan h a with
      | (inr _, h1) => run_plan h1 b
      | failed => failed
      end.
Proof.
  induction a as [|c a IH]; intros h; cbn [app run_plan]; [reflexivity|].
  destruct (_ =? 0); [apply IH|reflexivity].
Qed.

Lemma place_icon_plan (iconSource dest : str) (i : image) (h : history) :
  place_icon iconSource dest i h = run_plan h (place_calls iconSource dest i).
Proof.
  unfold place_icon, place_calls, bind. cbn [run_plan raised_by].
  rewrite os_call_run. destruct (_ =? 0); [|reflexivity].
  rewrite iconExtract_run. destruct (_ =? 0); [|reflexivity].
  rewrite os_call_run. destruct (_ =? 0); reflexivity.
Qed.

Lemma theme_loop_plan (iconSource dest : str) (images : list image) :
  forall (prev : option image) (h : history),
    theme_loop iconSource dest prev images h
    = run_plan h (flat_map (place_calls iconSource dest) (placed prev images)).
Proof.
  induction images as [|i rest IH]; intros prev h; cbn [theme_loop placed];
    [reflexivity|].
  unfold bind at 1. destruct (new_size prev i); cbn [app flat_map].
  - rewrite run_plan_app, place_icon_plan.
    destruct (run_plan h (place_calls iconSource dest i)) as [[e|[]] h1];
      [reflexivity|apply IH].
  - unfold ret at 1. apply IH.
Qed.

(** What [run_plan] leaves: the calls made are the first calls of the plan;
    all of them when it returns, and up to the first that fails, which
    raises its exception, otherwise. *)
Lemma run_plan_cases (plan : list call) :
  forall (h h' : history) (r : result unit),
    run_plan h plan = (r, h') ->
    (r = inr tt /\ h' = h ++ plan
     /\ forall before c rest, plan = before ++ c :: rest ->
                              (oracle (h ++ before) c).1 = 0)
    \/ (exists before c rest,
          plan = before ++ c :: rest
          /\ h' = h ++ before ++ [c]
          /\ (oracle (h ++ before) c).1 <> 0
          /\ r = inl (raised_by c)).
Proof.
  induction plan as [|c plan IH]; intros h h' r; cbn [run_plan].
  - intros [= <- <-]. left. rewrite app_nil_r. repeat split.
    intros [|? ?] ? ? E; discriminate E.
  - destruct (Z.eqb_spec (oracle h c).1 0) as [E0|E0].
    + intros H. apply IH in H as [(-> & -> & Hall)|(before & c' & rest & -> & -> & Hc & ->)].
      * left. rewrite <- app_assoc. repeat split.
        intros [|x before] c' rest E; cbn in E; injection E as <- E.
        { now rewrite app_nil_r. }
        specialize (Hall before c' rest E). now rewrite <- app_assoc in Hall.
      * right. exists (c :: before), c', rest.
        rewrite <- !app_assoc in *. repeat split; auto.
    + intros [= <- <-]. right. exists [], c, plan.
      rewrite app_nil_r. repeat split; auto.
Qed.

(** Whatever fails, the loop of the theme tree makes the calls of the images
    it places, in their order, each image after the one before it in the
    sorted catalog; it returns when all calls succeed, and otherwise stops
    at the first call that fails and raises [OSError] for a directory or a
    move and [CalledProcessError] for an extraction. *)
Theorem buildThemeTree_stops_at_failure
    (images : list image) (iconSource dest : str) (h h' : history)
    (r : result unit) :
  buildThemeTree images iconSource dest h = (r, h') ->
  let plan := flat_map (place_calls iconSource dest)
                (placed None (sort_images images)) in
  (r = inr tt /\ h' = h ++ plan
   /\ forall before c rest, plan = before ++ c :: rest ->
                            (oracle (h ++ before) c).1 = 0)
  \/ (exists before c rest,
        plan = before ++ c :: rest
        /\ h' = h ++ before ++ [c]
        /\ (oracle (h ++ before) c).1 <> 0
        /\ r = inl (raised_by c)).
Proof.
  unfold buildThemeTree. rewrite theme_loop_plan. apply run_plan_cases.
Qed.


(** *** The name and the calls of [createLauncher] for the icon *)

Lemma normalize_char_theme_chars (c : char) :
  Forall (fun x => theme_name_char x = true) (normalize_char c).
Proof.
  rewrite normalize_char_spec. unfold normalize_char_as_claimed.
  destruct (is_ascii c && ascii_alnum c) eqn:E.
  - apply andb_true_iff in E as [_ E]. constructor; [|constructor].
    unfold theme_name_char, ascii_lower, ascii_alnum, ascii_lower_letter,
      ascii_upper_letter, ascii_digit in *.
    destruct (N.leb_spec 65 c), (N.leb_spec c 90), (N.leb_spec 97 c),
      (N.leb_spec c 122), (N.leb_spec 48 c), (N.leb_spec c 57);
      cbn in E |- *; try discriminate E;
      repeat match goal with
        | |- context [N.leb ?a ?b] => destruct (N.leb_spec a b); try lia
        end; reflexivity.
  - destruct (N.eqb_spec c 95) as [->|?]; [repeat constructor|].
    destruct (N.eqb_spec c 46) as [->|?]; repeat constructor.
Qed.

(** The name of the theme icon holds only lower case ASCII letters, digits,
    underscores, periods and hyphens, whatever the name of the launcher and
    the Unicode tables: it holds no slash, so the icon is a file of the
    [apps] directory of its size. *)
Theorem iconDestination_chars (name : str) :
  Forall (fun c => theme_name_char c = true) (iconDestination name)
  /\ ~ In PosixPath.sep (iconDestination name).
Proof.
  assert (H : Forall (fun c => theme_name_char c = true) (iconDestination name)).
  { unfold iconDestination, normalize_name. apply Forall_app. split.
    - apply List.Forall_forall. intros c Hc.
      assert (E : forallb theme_name_char (lit "wlcreator-") = true) by reflexivity.
      rewrite forallb_forall in E. now apply E.
    - apply List.Forall_forall. intros c (x & _ & Hc)%in_flat_map.
      pose proof (normalize_char_theme_chars x) as Hx.
      rewrite List.Forall_forall in Hx. now apply Hx. }
  split; [exact H|].
  intros Hin. rewrite List.Forall_forall in H. apply H in Hin. discriminate Hin.
Qed.

Lemma place_calls_no_update (iconSource dest : str) (images : list image) :
  ~ In XdgIconResourceForceupdate (flat_map (place_calls iconSource dest) images).
Proof.
  intros (i & _ & H)%in_flat_map. unfold place_calls in H. cbn in H.
  destruct H as [H|[H|[H|[]]]]; discriminate H.
Qed.

Lemma subprocess_call_run (c : call) (h : history) :
  subprocess_call c h = (inr (oracle h c).1, h ++ [c]).
Proof. reflexivity. Qed.

(** An icon that is not a [.ico] file is used where it is, without any call.
    For a [.ico] file, the name of the theme icon is returned only after the
    listing, the calls that place the images and the update of the icon
    cache, in this order; when a call fails, the update is not made. *)
Theorem createLauncher_icon_cases (iconSource name : str) (h : history) :
  (Py.str_eqb (getSuffix iconSource) (lit ".ICO") = false ->
   createLauncher_icon iconSource name h = (inr iconSource, h))
  /\ (Py.str_eqb (getSuffix iconSource) (lit ".ICO") = true ->
      forall (r : result str) (h' : history),
        createLauncher_icon iconSource name h = (r, h') ->
        (forall d, r = inr d ->
           d = iconDestination name
           /\ exists images,
                iconImages iconSource h = (inr images, h ++ [IcotoolList iconSource])
                /\ h' = h ++ [IcotoolList iconSource]
                          ++ flat_map (place_calls iconSource (iconDestination name))
                               (placed None (sort_images images))
                          ++ [XdgIconResourceForceupdate])
        /\ (forall e, r = inl e ->
              exists calls, h' = h ++ calls
                            /\ ~ In XdgIconResourceForceupdate calls)).
Proof.
  unfold createLauncher_icon. split; intros ->; [reflexivity|].
  intros r h'. unfold bind at 1.
  destruct (iconImages iconSource h) as [[e|images] h1] eqn:E.
  - rewrite iconImages_run in E. injection E as _ <-. intros [= <- <-].
    split; [discriminate|]. intros e' _. exists [IcotoolList iconSource].
    split; [reflexivity|]. intros [H|[]]. discriminate H.
  - pose proof E as E'. rewrite iconImages_run in E'. injection E' as _ <-.
    unfold bind at 1.
    destruct (buildThemeTree images iconSource (iconDestination name)
                (h ++ [IcotoolList iconSource])) as [[e|[]] h2] eqn:Eb.
    + intros [= <- <-]. split; [discriminate|]. intros e' _.
      unfold buildThemeTree in Eb. rewrite theme_loop_plan in Eb.
      apply run_plan_cases in Eb
        as [([=] & _)|(before & c & rest & Hplan & -> & _ & _)].
      exists ([IcotoolList iconSource] ++ before ++ [c]).
      split; [now rewrite <- !app_assoc|].
      intros [H|H]%in_app_or; [destruct H as [H|[]]; discriminate H|].
      apply (place_calls_no_update iconSource (iconDestination name)
               (placed None (sort_images images))).
      rewrite Hplan. apply in_app_or in H as [H|[<-|[]]];
        apply in_or_app; [now left|right; now left].
    + unfold bind. rewrite subprocess_call_run. unfold ret. intros [= <- <-].
      split; [|discriminate]. intros d [= <-]. split; [reflexivity|].
      exists images. split; [reflexivity|].
      unfold buildThemeTree in Eb. rewrite theme_loop_plan in Eb.
      apply run_plan_cases in Eb
        as [(_ & -> & _)|(? & ? & ? & _ & _ & _ & [=])].
      now rewrite <- !app_assoc.
Qed.


(** ** Further properties of [iconImages] *)

(** *** The pattern reads back the tokens of a line *)

Lemma findall_in_key (k acc rest : bytes) :
  ~ In Re.space k -> ~ In Re.equals k ->
  Re.findall_from (Re.InKey acc) (k ++ rest)
  = Re.findall_from (Re.InKey (acc ++ k)) rest.
Proof.
  revert acc; induction k as [|c k IH]; intros acc Hs He; cbn [app Re.findall_from].
  - now rewrite app_nil_r.
  - destruct (N.eqb_spec c Re.space) as [->|_]; [destruct Hs; now left|].
    destruct (N.eqb_spec c Re.equals) as [->|_]; [destruct He; now left|].
    rewrite IH; [|intros H; apply Hs; now right|intros H; apply He; now right].
    now rewrite <- app_assoc.
Qed.

Lemma findall_in_value (k v acc rest : bytes) :
  ~ In Re.space v ->
  Re.findall_from (Re.InValue k acc) (v ++ rest)
  = Re.findall_from (Re.InValue k (acc ++ v)) rest.
Proof.
  revert acc; induction v as [|c v IH]; intros acc Hs; cbn [app Re.findall_from].
  - now rewrite app_nil_r.
  - destruct (N.eqb_spec c Re.space) as [->|_]; [destruct Hs; now left|].
    rewrite IH; [|intros H; apply Hs; now right].
    now rewrite <- app_assoc.
Qed.

Lemma findall_token_end (t : bytes * option bytes) :
  token_ok t -> Re.findall (render_token t) = [token_groups t].
Proof.
  destruct t as [k [v|]]; intros (Hs & He & Hv); unfold Re.findall, render_token,
    token_groups; cbn [fst snd app Re.findall_from]; rewrite N.eqb_refl.
  - rewrite (findall_in_key k [] _ Hs He). cbn [app Re.findall_from].
    rewrite N.eqb_refl. change (Re.equals =? Re.space)%N with false. cbn iota.
    rewrite <- (app_nil_r v) at 1.
    now rewrite (findall_in_value k v [] [] (Hv v eq_refl)).
  - now rewrite (findall_in_key k [] [] Hs He).
Qed.

Lemma findall_token_space (t : bytes * option bytes) (rest : bytes) :
  token_ok t ->
  Re.findall (render_token t ++ Re.space :: rest) = token_groups t :: Re.findall rest.
Proof.
  destruct t as [k [v|]]; intros (Hs & He & Hv); unfold Re.findall, render_token,
    token_groups; cbn [fst snd app Re.findall_from]; rewrite N.eqb_refl.
  - rewrite <- !app_assoc. rewrite (findall_in_key k [] _ Hs He).
    cbn [app Re.findall_from].
    rewrite N.eqb_refl. change (Re.equals =? Re.space)%N with false. cbn iota.
    rewrite (findall_in_value k v [] _ (Hv v eq_refl)).
    cbn [app Re.findall_from]. now rewrite N.eqb_refl.
  - rewrite <- !app_assoc. rewrite (findall_in_key k [] _ Hs He).
    cbn [app Re.findall_from]. now rewrite N.eqb_refl.
Qed.

Lemma findall_token_line (l : list (bytes * option bytes)) :
  Forall token_ok l ->
  Re.findall (join_bytes Re.space (map render_token l)) = map token_groups l.
Proof.
  induction 1 as [|t l Ht Hl IH]; [reflexivity|].
  destruct l as [|t' l].
  - cbn [map join_bytes]. now apply findall_token_end.
  - change (join_bytes Re.space (map render_token (t :: t' :: l)))
      with (render_token t ++ Re.space :: join_bytes Re.space (map render_token (t' :: l))).
    rewrite (findall_token_space t _ Ht), IH. reflexivity.
Qed.

(** The pattern of [iconImages] finds, in a line of tokens separated by
    single spaces, the key and the value of every token, in their order; a
    token without value gives the empty value. *)
Theorem findall_tokens (l : list (bytes * option bytes)) :
  Forall token_ok l ->
  Re.findall (join_bytes Re.space (map render_token l)) = map token_groups l.
Proof.
  apply findall_token_line.
Qed.

(** *** The listing of [icotool] is read back *)

Lemma listing_line_tokens (i : image) (palette : Z) :
  listing_line i palette
  = join_bytes Re.space
      (map render_token
         [(lit "icon", None);
          (lit "index", Some (Py.str_of_int (INDEX i)));
          (lit "width", Some (Py.str_of_int (WIDTH i)));
          (lit "height", Some (Py.str_of_int (HEIGHT i)));
          (lit "bit-depth", Some (Py.str_of_int (BIT_DEPTH i)));
          (lit "palette-size", Some (Py.str_of_int palette))]).
Proof.
  unfold listing_line, render_token. cbn [map join_bytes fst snd].
  rewrite <- !app_assoc. reflexivity.
Qed.

Lemma decimal_token_ok (key : string) (n : Z) :
  forallb (fun c => negb (N.eqb c Re.space) && negb (N.eqb c Re.equals)) (lit key) = true ->
  token_ok (lit key, Some (Py.str_of_int n)).
Proof.
  intros H. rewrite forallb_forall in H. unfold token_ok. cbn [fst snd].
  repeat split.
  - intros Hin. apply H in Hin. discriminate Hin.
  - intros Hin. apply H in Hin. discriminate Hin.
  - intros v [= <-]. apply decimal_no. unfold decimal_char, Re.space. lia.
Qed.

Lemma flag_token_ok (key : string) :
  forallb (fun c => negb (N.eqb c Re.space) && negb (N.eqb c Re.equals)) (lit key) = true ->
  token_ok (lit key, None).
Proof.
  intros H. rewrite forallb_forall in H. unfold token_ok. cbn [fst snd].
  repeat split.
  - intros Hin. apply H in Hin. discriminate Hin.
  - intros Hin. apply H in Hin. discriminate Hin.
  - discriminate.
Qed.

Lemma image_of_listing_groups (a b c d e : bytes) (i : image) :
  int_of_bytes a = Some (INDEX i) -> int_of_bytes b = Some (WIDTH i) ->
  int_of_bytes c = Some (HEIGHT i) -> int_of_bytes d = Some (BIT_DEPTH i) ->
  (let dd := dict [(lit "icon", []); (lit "index", a); (lit "width", b);
                   (lit "height", c); (lit "bit-depth", d);
                   (lit "palette-size", e)] in
   try x <- int_item dd (lit "index");
   try w <- int_item dd (lit "width");
   try h <- int_item dd (lit "height");
   try y <- int_item dd (lit "bit-depth");
   inr (Image x w h y))
  = inr i.
Proof.
  intros Ha Hb Hc Hd. cbv zeta. unfold int_item.
  assert (E : forall key v,
             (dict [(lit "icon", []); (lit "index", a); (lit "width", b);
                    (lit "height", c); (lit "bit-depth", d);
                    (lit "palette-size", e)] !! key) = v ->
             (dict [(lit "icon", []); (lit "index", a); (lit "width", b);
                    (lit "height", c); (lit "bit-depth", d);
                    (lit "palette-size", e)] !! key) = v) by trivial.
  rewrite (E (lit "index") (Some a)) by (vm_compute; reflexivity).
  rewrite (E (lit "width") (Some b)) by (vm_compute; reflexivity).
  rewrite (E (lit "height") (Some c)) by (vm_compute; reflexivity).
  rewrite (E (lit "bit-depth") (Some d)) by (vm_compute; reflexivity).
  rewrite Ha, Hb, Hc, Hd. cbn. now destruct i.
Qed.

Lemma image_of_listing_line (i : image) (palette : Z) :
  (forall n, int_of_bytes (Py.str_of_int n) = Some n) ->
  image_of_line (listing_line i palette) = inr i.
Proof.
  intros Hint. unfold image_of_line.
  rewrite listing_line_tokens, findall_token_line.
  - cbn [map]. unfold token_groups. cbn [fst snd].
    apply (image_of_listing_groups _ _ _ _ (Py.str_of_int palette)); apply Hint.
  - repeat (apply List.Forall_cons;
              [first [now apply decimal_token_ok | now apply flag_token_ok]|]).
    apply List.Forall_nil.
Qed.

Lemma split_no_sep (sep : N) (a : bytes) : ~ In sep a -> Py.split sep a = [a].
Proof.
  induction a as [|x a IH]; intros Ha; cbn [Py.split]; [reflexivity|].
  destruct (N.eqb_spec x sep) as [->|_]; [destruct Ha; now left|].
  rewrite IH; [reflexivity|]. intros H. apply Ha. now right.
Qed.

Lemma split_app_sep (sep : N) (a b : bytes) :
  ~ In sep a -> Py.split sep (a ++ sep :: b) = a :: Py.split sep b.
Proof.
  induction a as [|x a IH]; intros Ha; cbn [app Py.split].
  - now rewrite N.eqb_refl.
  - destruct (N.eqb_spec x sep) as [->|_]; [destruct Ha; now left|].
    rewrite IH; [reflexivity|]. intros H. apply Ha. now right.
Qed.

Lemma listing_line_no_newline (i : image) (palette : Z) :
  ~ In c_nl (listing_line i palette).
Proof.
  unfold listing_line. rewrite !in_app_iff.
  assert (Hd : forall n, ~ In c_nl (Py.str_of_int n)).
  { intros n. apply decimal_no. unfold decimal_char, c_nl. lia. }
  assert (Hl : forall s, forallb (fun c => negb (N.eqb c c_nl)) (lit s) = true ->
                         ~ In c_nl (lit s)).
  { intros s H Hin. rewrite forallb_forall in H. apply H in Hin. discriminate Hin. }
  intros H.
  repeat (destruct H as [H|H]; [first [now apply Hd in H | now apply Hl in H]|]).
  now apply Hd in H.
Qed.

Lemma split_render_listing (l : list (image * Z)) (ip : image * Z) :
  Py.split c_nl (render_listing l ++ listing_line ip.1 ip.2)
  = map (fun ip => listing_line ip.1 ip.2) (l ++ [ip]).
Proof.
  induction l as [|x l IH]; cbn [render_listing flat_map app map].
  - apply split_no_sep, listing_line_no_newline.
  - rewrite <- !app_assoc. cbn [app].
    rewrite split_app_sep by apply listing_line_no_newline.
    f_equal. exact IH.
Qed.

Lemma res_map_all_inr {A B C : Type} (f : A -> result B) (line : C -> A)
    (g : C -> B) (l : list C) :
  (forall x, In x l -> f (line x) = inr (g x)) ->
  res_map f (map line l) = inr (map g l).
Proof.
  induction l as [|x l IH]; intros H; cbn [res_map map]; [reflexivity|].
  rewrite (H x (or_introl eq_refl)). cbn [res_bind].
  rewrite IH by (intros y Hy; apply H; now right). reflexivity.
Qed.

(** What [icotool -l] prints for the images of a catalog that is not empty,
    a line and a newline for each, is read back as these images in their
    order, whatever their palettes, as soon as [int] reads back the decimal
    numbers. *)
Theorem images_of_rendered_listing (l : list (image * Z)) :
  (forall n, int_of_bytes (Py.str_of_int n) = Some n) ->
  l <> [] ->
  images_of_listing (render_listing l) = inr (map fst l).
Proof.
  intros Hint Hne. destruct (exists_last Hne) as (l' & ip & ->).
  unfold images_of_listing.
  assert (E : render_listing (l' ++ [ip])
              = (render_listing l' ++ listing_line ip.1 ip.2) ++ [c_nl]).
  { unfold render_listing. rewrite flat_map_app. cbn [flat_map].
    now rewrite app_nil_r, app_assoc. }
  rewrite E, strip_newline_one, split_render_listing.
  apply res_map_all_inr. intros x _. now apply image_of_listing_line.
Qed.


(** ** Properties of the path of the desktop *)

Lemma desktopPath_loop_newlines (k fuel : nat) :
  (k < fuel)%nat -> desktopPath_loop fuel (repeat c_nl k) = IndexError.
Proof.
  revert fuel; induction k as [|k IH]; intros [|fuel] Hk; try lia; [reflexivity|].
  cbn [desktopPath_loop repeat].
  rewrite repeat_cons, last_last, N.eqb_refl, removelast_last.
  apply IH. lia.
Qed.

Lemma desktopPath_loop_strips (s : str) (x : char) (k fuel : nat) :
  x <> c_nl -> (k < fuel)%nat ->
  desktopPath_loop fuel ((s ++ [x]) ++ repeat c_nl k) = Exited (s ++ [x]).
Proof.
  intros Hx. revert fuel; induction k as [|k IH]; intros [|fuel] Hk; try lia.
  - cbn [repeat]. rewrite app_nil_r. cbn [desktopPath_loop].
    rewrite last_last. destruct (N.eqb_spec x c_nl); [contradiction|].
    destruct (s ++ [x]) eqn:E; [now destruct s|reflexivity].
  - cbn [desktopPath_loop repeat].
    rewrite repeat_cons, app_assoc, last_last, N.eqb_refl, removelast_last.
    rewrite IH by lia.
    match goal with |- match ?t with _ => _ end = _ => destruct t eqn:E end;
      [|reflexivity].
    apply app_eq_nil in E as [_ E]. discriminate E.
Qed.

(** A string is newlines only, or a string that does not end with a
    newline followed by newlines. *)
Lemma trailing_newlines (out : str) :
  (exists k, out = repeat c_nl k)
  \/ (exists s x k, x <> c_nl /\ out = (s ++ [x]) ++ repeat c_nl k).
Proof.
  induction out as [|c out IH] using rev_ind; [left; now exists 0%nat|].
  destruct (N.eqb_spec c c_nl) as [->|Hc].
  - destruct IH as [[k ->]|(s & x & k & Hx & ->)].
    + left. exists (S k). now rewrite <- repeat_cons.
    + right. exists s, x, (S k). split; [exact Hx|].
      now rewrite <- app_assoc, <- repeat_cons.
  - right. exists out, c, 0%nat. split; [exact Hc|]. cbn. now rewrite app_nil_r.
Qed.

(** The loop drops every newline at the end of the output of
    [xdg-user-dir]; it raises [IndexError] when the output is empty or holds
    newlines only; the fuel given is always enough. *)
Theorem desktopPath_of_cases :
  (forall (s : str) (x : char) (k : nat),
      x <> c_nl ->
      desktopPath_of ((s ++ [x]) ++ repeat c_nl k) = Exited (s ++ [x]))
  /\ (forall k : nat, desktopPath_of (repeat c_nl k) = IndexError)
  /\ (forall out : str, desktopPath_of out <> OutOfFuel).
Proof.
  assert (H1 : forall s x k, x <> c_nl ->
             desktopPath_of ((s ++ [x]) ++ repeat c_nl k) = Exited (s ++ [x])).
  { intros s x k Hx. unfold desktopPath_of. apply desktopPath_loop_strips; [exact Hx|].
    rewrite length_app, repeat_length. lia. }
  assert (H2 : forall k, desktopPath_of (repeat c_nl k) = IndexError).
  { intros k. unfold desktopPath_of. apply desktopPath_loop_newlines.
    rewrite repeat_length. lia. }
  repeat apply conj; [exact H1|exact H2|].
  intros out. destruct (trailing_newlines out) as [[k ->]|(s & x & k & Hx & ->)].
  - now rewrite H2.
  - now rewrite H1.
Qed.

(** ** Properties of the mode of the launcher *)

(** The mode given to [chmod] grants no bit of the umask and no bit outside
    [0o777]; it grants no execute bit unless the launcher is to be
    executable; and with a umask of [0o022] it is [0o755] or [0o644]. *)
Theorem writeLauncher_mode_bits (executableIcon : bool) (umask : Z) :
  Z.land (writeLauncher_mode executableIcon umask) umask = 0
  /\ Z.land (writeLauncher_mode executableIcon umask) 511
     = writeLauncher_mode executableIcon umask
  /\ 0 <= writeLauncher_mode executableIcon umask <= 511
  /\ (executableIcon = false ->
      Z.land (writeLauncher_mode executableIcon umask) 73 = 0)
  /\ writeLauncher_mode true 18 = 493
  /\ writeLauncher_mode false 18 = 420.
Proof.
  unfold writeLauncher_mode. cbv zeta.
  set (mode := if executableIcon then 511 else 438).
  assert (Hmode : 0 <= mode /\ Z.land mode 511 = mode)
    by (subst mode; destruct executableIcon; split; (lia || reflexivity)).
  assert (H511 : Z.land (Z.land mode (Z.lnot umask)) 511 = Z.land mode (Z.lnot umask)).
  { rewrite <- Z.land_assoc, (Z.land_comm _ 511), Z.land_assoc.
    f_equal. apply Hmode. }
  repeat apply conj.
  - apply Z.bits_inj'. intros n Hn.
    rewrite !Z.land_spec, Z.lnot_spec, Z.bits_0 by exact Hn.
    destruct (Z.testbit umask n), (Z.testbit mode n); reflexivity.
  - exact H511.
  - apply Z.land_nonneg. now left.
  - change 511 with (Z.ones 9) in H511. rewrite Z.land_ones in H511 by lia.
    change (2 ^ 9) with 512 in H511.
    pose proof (Z.mod_pos_bound (Z.land mode (Z.lnot umask)) 512). lia.
  - intros E. subst mode. rewrite E.
    rewrite <- Z.land_assoc, (Z.land_comm _ 73), Z.land_assoc. reflexivity.
  - reflexivity.
  - reflexivity.
Qed.


(** ** Properties of the icons of a container *)

Lemma basename_no_sep (p : str) : ~ In PosixPath.sep (PosixPath.basename p).
Proof.
  induction p as [|x p IH]; cbn [PosixPath.basename]; [intros []|].
  destruct (Py.char_in PosixPath.sep p) eqn:E; [exact IH|].
  assert (Hp : ~ In PosixPath.sep p).
  { intros H. apply char_in_In in H. congruence. }
  destruct (N.eqb_spec x PosixPath.sep) as [->|Hx]; [exact Hp|].
  intros [H|H]; [now apply Hx|now apply Hp].
Qed.

Lemma basename_of_name (f : str) : ~ In PosixPath.sep f -> PosixPath.basename f = f.
Proof.
  induction f as [|x f IH]; intros Hf; cbn [PosixPath.basename]; [reflexivity|].
  rewrite char_in_false by (intros H; apply Hf; now right).
  destruct (N.eqb_spec x PosixPath.sep) as [->|_]; [|reflexivity].
  destruct Hf. now left.
Qed.

Lemma basename_app_sep (dir name : str) :
  ~ In PosixPath.sep name ->
  PosixPath.basename (dir ++ PosixPath.sep :: name) = name.
Proof.
  intros Hn. induction dir as [|x dir IH]; cbn [app PosixPath.basename].
  - now rewrite (char_in_false _ _ Hn), N.eqb_refl.
  - assert (E : Py.char_in PosixPath.sep (dir ++ PosixPath.sep :: name) = true).
    { apply char_in_In, in_or_app. right. now left. }
    now rewrite E.
Qed.

Lemma last_n_app (n : nat) (a b : str) : length b = n -> Py.last_n n (a ++ b) = b.
Proof.
  intros <-. unfold Py.last_n. rewrite length_app.
  replace (length a + length b - length b)%nat with (length a + 0)%nat by lia.
  rewrite skipn_app, skipn_all2, Nat.add_0_r by lia.
  replace (length a - length a)%nat with 0%nat by lia. reflexivity.
Qed.

Lemma drop_last_n_app (n : nat) (a b : str) :
  length b = n -> Py.drop_last_n n (a ++ b) = a.
Proof.
  intros <-. unfold Py.drop_last_n. rewrite length_app.
  replace (length a + length b - length b)%nat with (length a + 0)%nat by lia.
  rewrite firstn_app, Nat.add_0_r, firstn_all.
  replace (length a - length a)%nat with 0%nat by lia. cbn. apply app_nil_r.
Qed.

(** The title of an icon pulled out of a container is the part of the name
    of its file between the name of the container followed by four
    characters and the last four characters. *)
Theorem icon_title_of_resource
    (iconPath dir infix title ext : str) :
  length infix = 4%nat -> length ext = 4%nat ->
  ~ In PosixPath.sep infix -> ~ In PosixPath.sep title -> ~ In PosixPath.sep ext ->
  icon_title iconPath
    (dir ++ [PosixPath.sep] ++ PosixPath.basename iconPath ++ infix ++ title ++ ext)
  = title.
Proof.
  intros Hi He Hsi Hst Hse. unfold icon_title. cbn [app].
  rewrite basename_app_sep.
  - rewrite app_assoc, skipn_app.
    rewrite skipn_all2 by (rewrite length_app; lia).
    rewrite length_app, Hi.
    replace (length (PosixPath.basename iconPath) + 4
             - (length (PosixPath.basename iconPath) + 4))%nat with 0%nat by lia.
    cbn [skipn app]. now apply drop_last_n_app.
  - rewrite !in_app_iff. pose proof (basename_no_sep iconPath). pure_proof. tauto.
Qed.

Lemma join2_ends (path b : str) : exists x, PosixPath.join2 path b = x ++ b.
Proof.
  unfold PosixPath.join2.
  destruct (Py.startswith _ b); [now exists []|].
  destruct (_ || _); [now exists path|].
  exists (path ++ [PosixPath.sep]). now rewrite <- app_assoc.
Qed.

Lemma getSuffix_ico_path (title : str) : getSuffix (ico_path title) = lit ".ICO".
Proof.
  unfold ico_path, getSuffix. cbn [PosixPath.join fold_left].
  destruct (join2_ends temporary (title ++ lit ".ico")) as [x ->].
  rewrite !app_assoc, last_n_app by reflexivity. reflexivity.
Qed.

(** An icon picked in a container is read from a [.ico] file of the scratch
    directory, so its images go to the theme tree; without a pick no
    launcher is made; an icon that is not in a container is read where it
    is. *)
Theorem createLauncher_iconSource_cases (iconPath : str) (selected : list str) :
  (multiIconFile (getSuffix iconPath) = true ->
   forall title rest, selected = title :: rest ->
     exists iconSource,
       createLauncher_iconSource iconPath selected = Some iconSource
       /\ iconSource = PosixPath.join temporary [title ++ lit ".ico"]
       /\ Py.str_eqb (getSuffix iconSource) (lit ".ICO") = true)
  /\ (multiIconFile (getSuffix iconPath) = true -> selected = [] ->
      createLauncher_iconSource iconPath selected = None)
  /\ (multiIconFile (getSuffix iconPath) = false ->
      createLauncher_iconSource iconPath selected = Some iconPath).
Proof.
  unfold createLauncher_iconSource. repeat apply conj.
  - intros -> title rest ->. eexists. split; [reflexivity|].
    split; [reflexivity|]. apply str_eqb_eq, getSuffix_ico_path.
  - now intros -> ->.
  - now intros ->.
Qed.


Lemma ascii_case_char (c u : char) :
  u = 46%N \/ (65 <= u <= 90)%N ->
  (ascii_upper c = u <-> ascii_lower c = ascii_lower u).
Proof.
  intros [->|Hu].
  - apply ascii_case_dot.
  - assert (E : ascii_lower u = (u + 32)%N).
    { unfold ascii_lower, ascii_upper_letter.
      destruct (N.leb_spec 65 u), (N.leb_spec u 90); cbn; lia. }
    rewrite E. now apply ascii_case_letter.
Qed.

Lemma ascii_case_map (s u : str) :
  Forall (fun x => x = 46%N \/ (65 <= x <= 90)%N) u ->
  (map ascii_upper s = u <-> map ascii_lower s = map ascii_lower u).
Proof.
  pure_proof.
  intros Hu. revert s; induction Hu as [|x u Hx _ IH]; intros [|c s]; cbn [map];
    try (split; discriminate); [tauto|].
  specialize (IH s). pose proof (ascii_case_char c x Hx) as Hc. pure_proof.
  split; intros [= H1 H2]; f_equal; tauto.
Qed.

(** On a name whose last four characters are ASCII, a file is a container
    exactly when these are [.exe], [.dll] or [.icl] in any mix of upper and
    lower case; and a container is never taken for a [.ico] file. *)
Theorem multiIconFile_suffix (file : str) :
  (Forall (fun c => is_ascii c = true) (Py.last_n 4 file) ->
   (multiIconFile (getSuffix file) = true
    <-> map ascii_lower (Py.last_n 4 file) = lit ".exe"
        \/ map ascii_lower (Py.last_n 4 file) = lit ".dll"
        \/ map ascii_lower (Py.last_n 4 file) = lit ".icl"))
  /\ (multiIconFile (getSuffix file) = true ->
      Py.str_eqb (getSuffix file) (lit ".ICO") = false).
Proof.
  unfold multiIconFile. cbn [existsb]. rewrite orb_false_r. split.
  - intros Hascii. unfold getSuffix. rewrite (upper_ascii _ Hascii).
    rewrite !orb_true_iff, !str_eqb_eq.
    assert (Hu : forall u : string,
               forallb (fun x => N.eqb x 46 || (N.leb 65 x && N.leb x 90)) (lit u) = true ->
               Forall (fun x => x = 46%N \/ (65 <= x <= 90)%N) (lit u)).
    { intros u H. apply List.Forall_forall. intros x Hx.
      rewrite forallb_forall in H. specialize (H x Hx).
      apply orb_true_iff in H as [H|H]; [left; now apply N.eqb_eq|right].
      apply andb_true_iff in H as [H1 H2].
      apply N.leb_le in H1, H2. lia. }
    rewrite (ascii_case_map _ (lit ".EXE")), (ascii_case_map _ (lit ".DLL")),
      (ascii_case_map _ (lit ".ICL")) by now apply Hu.
    reflexivity.
  - intros H. apply bool_decide_eq_false. intros E. rewrite E in H.
    discriminate H.
Qed.


(** ** Properties of the text of the launcher *)

Lemma split_lines (lines : list str) (rest : str) :
  Forall (fun l => ~ In c_nl l) lines ->
  Py.split c_nl (flat_map (fun l => l ++ [c_nl]) lines ++ rest)
  = lines ++ Py.split c_nl rest.
Proof.
  induction 1 as [|l lines Hl _ IH]; [reflexivity|].
  cbn [flat_map app]. rewrite <- !app_assoc. cbn [app].
  now rewrite (split_app_sep c_nl l _ Hl), IH.
Qed.

Lemma launcherText_lines (f : form) (executableIcon : bool)
    (name iconDestination : str) (categories : list str) :
  launcherText f executableIcon name iconDestination categories
  = flat_map (fun l => l ++ [c_nl])
      (launcher_lines f executableIcon name iconDestination categories).
Proof.
  unfold launcherText, launcher_lines. cbv zeta.
  destruct executableIcon, categories; cbn [app flat_map];
    rewrite <- ?app_assoc; cbn [app]; rewrite ?app_nil_r; reflexivity.
Qed.

Lemma no_newline_lit_app (s : string) (t : str) :
  forallb (fun c => negb (N.eqb c c_nl)) (lit s) = true ->
  ~ In c_nl t -> ~ In c_nl (lit s ++ t).
Proof.
  intros H Ht [Hin|Hin]%in_app_or; [|now apply Ht].
  rewrite forallb_forall in H. apply H in Hin. discriminate Hin.
Qed.

(** When the name, the icon, the directory of the executable and the
    categories hold no newline, and the command is one line, the text of the
    launcher is made of its lines, each ended by a newline: the interpreter
    line and a blank line for an executable launcher, the group header, one
    line for each of [Type], [Version], [Name], [Icon], [Exec] and [Path],
    and a [Categories] line when a category is checked. *)
Theorem launcherText_split (f : form) (executableIcon : bool)
    (name iconDestination : str) (categories : list str) :
  ~ In c_nl name -> ~ In c_nl iconDestination ->
  ~ In c_nl (PosixPath.dirname (executable_path f)) ->
  ~ In c_nl (join_bytes 59%N categories) ->
  one_line (commandLine f) ->
  Py.split c_nl (launcherText f executableIcon name iconDestination categories)
  = launcher_lines f executableIcon name iconDestination categories ++ [[]].
Proof.
  intros Hn Hi Hd Hc [_ He]. rewrite launcherText_lines.
  rewrite <- (app_nil_r (flat_map _ _)). rewrite split_lines; [reflexivity|].
  assert (Hl : forall s, forallb (fun c => negb (N.eqb c c_nl)) (lit s) = true ->
                         ~ In c_nl (lit s)).
  { intros s H. rewrite <- (app_nil_r (lit s)). apply no_newline_lit_app; auto. }
  unfold launcher_lines. apply Forall_app. split; [|apply Forall_app; split].
  - destruct executableIcon; repeat constructor;
      first [now apply Hl | intros []].
  - repeat constructor; first [now apply no_newline_lit_app | now apply Hl].
  - destruct categories; repeat constructor. now apply no_newline_lit_app.
Qed.


(** ** The single quotes of [escape] and the directory of [iconExtract] *)

(** The text comes back between single quotes exactly when single quotes
    are allowed, the text holds a reserved character and it holds no
    character that is unsafe in single quotes: a text between single quotes
    never holds a single quote. *)
Theorem escape_single_quoted_iff (text : str) (allow : bool) :
  escape text allow = [c_squote] ++ text ++ [c_squote]
  <-> allow = true
      /\ (exists c, In c text /\ is_reserved c = true)
      /\ (forall c, In c text -> is_sq_illegal c = false).
Proof.
  rewrite escape_cases. split.
  - destruct (allow && negb (existsb is_sq_illegal text) && existsb is_reserved text)
      eqn:E.
    + intros _. apply andb_true_iff in E as [[Ha Hs]%andb_true_iff Hr].
      apply negb_true_iff in Hs. split; [exact Ha|]. split.
      * now apply existsb_true_In.
      * intros c Hc. eapply existsb_false_In; eauto.
    + destruct (existsb is_sq_illegal text || existsb is_reserved text).
      * discriminate.
      * intros H. apply (f_equal (@length _)) in H.
        rewrite !length_app in H. cbn in H. lia.
  - intros (-> & Hr & Hs).
    apply existsb_true_In in Hr. rewrite Hr.
    assert (E : existsb is_sq_illegal text = false).
    { destruct (existsb is_sq_illegal text) eqn:E; [|reflexivity].
      apply existsb_true_In in E as (c & Hc & E). rewrite (Hs c Hc) in E.
      discriminate E. }
    now rewrite E.
Qed.

Lemma endswith_sep_true (path : str) :
  Py.endswith [PosixPath.sep] path = true -> exists p, path = p ++ [PosixPath.sep].
Proof.
  unfold Py.endswith, Py.last_n. intros H%str_eqb_eq. cbn [length] in H.
  exists (firstn (length path - 1) path).
  rewrite <- H. symmetry. apply firstn_skipn.
Qed.

Lemma basename_join2 (path name : str) :
  ~ In PosixPath.sep name ->
  PosixPath.basename (PosixPath.join2 path name ++ []) = name.
Proof.
  intros Hn. rewrite app_nil_r. unfold PosixPath.join2.
  destruct (Py.startswith [PosixPath.sep] name) eqn:Es.
  - now apply basename_of_name.
  - destruct path as [|x path].
    + cbn. now apply basename_of_name.
    + cbn [Py.truthy negb orb].
      destruct (Py.endswith [PosixPath.sep] (x :: path)) eqn:Ee.
      * apply endswith_sep_true in Ee as [p ->].
        rewrite <- app_assoc. cbn [app]. now apply basename_app_sep.
      * cbn [app]. rewrite app_comm_cons. now apply basename_app_sep.
Qed.

Lemma output_suffix_no_sep (i : image) : ~ In PosixPath.sep (output_suffix i).
Proof.
  unfold output_suffix. rewrite !in_app_iff.
  assert (Hd : forall n, ~ In PosixPath.sep (Py.str_of_int n)).
  { intros n. apply decimal_no. unfold decimal_char, PosixPath.sep. lia. }
  assert (Hl : forall s, forallb (fun c => negb (N.eqb c PosixPath.sep)) (lit s) = true ->
                         ~ In PosixPath.sep (lit s)).
  { intros s H Hin. rewrite forallb_forall in H. apply H in Hin. discriminate Hin. }
  intros H.
  repeat (destruct H as [H|H]; [first [now apply Hd in H | now apply Hl in H]|]).
  now apply Hl in H.
Qed.

(** The file [iconExtract] returns is a file of the directory it is given:
    the path is the directory joined to a name without slash, made of the
    base name of the source, without its [.ico], and of the index, the
    width, the height and the bit depth of the image. *)
Theorem iconExtract_path_in_directory (ico : str) (i : image) (path : str) :
  let stem := if Py.str_eqb (getSuffix ico) (lit ".ICO")
              then Py.drop_last_n 4 ico else ico in
  let name := PosixPath.basename stem ++ output_suffix i in
  iconExtract_path ico i path = PosixPath.join path [name]
  /\ ~ In PosixPath.sep name
  /\ PosixPath.basename (iconExtract_path ico i path) = name.
Proof.
  cbv zeta.
  set (stem := if Py.str_eqb (getSuffix ico) (lit ".ICO")
               then Py.drop_last_n 4 ico else ico).
  assert (Hname : ~ In PosixPath.sep (PosixPath.basename stem ++ output_suffix i)).
  { intros [H|H]%in_app_or; [now apply basename_no_sep in H|].
    now apply output_suffix_no_sep in H. }
  assert (Hb : ~ In PosixPath.sep (PosixPath.basename stem)) by apply basename_no_sep.
  assert (E : iconExtract_path ico i path
              = PosixPath.join path [PosixPath.basename stem ++ output_suffix i]).
  { unfold iconExtract_path. fold stem. fold (output_suffix i).
    cbn [PosixPath.join fold_left]. unfold PosixPath.join2.
    rewrite !startswith_sep_false
      by (apply List.Forall_forall; intros c Hc ->; auto).
    destruct (_ || _); now rewrite <- ?app_assoc. }
  split; [exact E|]. split; [exact Hname|].
  rewrite E. cbn [PosixPath.join fold_left].
  rewrite <- (app_nil_r (PosixPath.join2 _ _)). now apply basename_join2.
Qed.

End Program.

(** * Instances of the statements above *)

(** C1, as the specification words it, fails whatever the C library
    computes: of two images of equal key the first is kept, whatever the bit
    depth of the second. The catalog is a 32 by 128 image of depth 8
    followed by a 64 by 64 image of depth 32; both have the area 4096. *)
Lemma selectBest_equal_score_not_deepest :
  ~ (exists pow_half complex_pow_half hypot,
        forall (c : Z) (images : list image),
          images <> [] ->
          Forall (scored pow_half complex_pow_half hypot c) images ->
          exists best kb,
            selectBest pow_half complex_pow_half hypot c images = inr best
            /\ In best images
            /\ score pow_half complex_pow_half hypot c best = inr kb
            /\ (forall m, In m images ->
                          exists km,
                            score pow_half complex_pow_half hypot c m = inr km
                            /\ Float.ltb km kb = false)
            /\ (forall m, In m images ->
                          score pow_half complex_pow_half hypot c m
                          = score pow_half complex_pow_half hypot c best ->
                          BIT_DEPTH m <= BIT_DEPTH best)).
Proof.
  intros (pow_half & complex_pow_half & hypot & H).
  destruct (selectBest_first_of_equal_scores pow_half complex_pow_half hypot)
    as (Esel & Eeq & Hs).
  destruct (H ICON_SIZE [Image 0 32 128 8; Image 1 64 64 32])
    as (best & kb & E & _ & _ & _ & Hd).
  - discriminate.
  - repeat constructor; [exact Hs|]. destruct Hs as [k Ek]. exists k.
    etransitivity; [exact Eeq|exact Ek].
  - rewrite Esel in E. injection E as <-.
    specialize (Hd (Image 1 64 64 32) (or_intror (or_introl eq_refl)) Eeq).
    cbn in Hd. lia.
Qed.

Lemma selectBest_least_score_witness :
  exists best kb,
    selectBest Sample.pow_half Sample.complex_pow_half Sample.hypot 64
      [Image 0 32 32 32; Image 1 16 16 8; Image 2 32 32 8] = inr best
    /\ In best [Image 0 32 32 32; Image 1 16 16 8; Image 2 32 32 8]
    /\ score Sample.pow_half Sample.complex_pow_half Sample.hypot 64 best = inr kb
    /\ (forall m, In m [Image 0 32 32 32; Image 1 16 16 8; Image 2 32 32 8] ->
                  exists km,
                    score Sample.pow_half Sample.complex_pow_half Sample.hypot 64 m
                    = inr km
                    /\ Float.ltb km kb = false)
    /\ (forall m, In m [Image 0 32 32 32; Image 1 16 16 8; Image 2 32 32 8] ->
                  WIDTH m = WIDTH best -> HEIGHT m = HEIGHT best ->
                  score Sample.pow_half Sample.complex_pow_half Sample.hypot 64 m
                  = inr kb
                  /\ BIT_DEPTH m <= BIT_DEPTH best).
Proof.
  apply selectBest_least_score_deepest_of_size.
  - discriminate.
  - repeat constructor; eexists; vm_compute; reflexivity.
Defined.

Lemma commandLine_sh_wrapping_witness :
  commandLine Sample.home Sample.launcher
  = lit "sh -c " ++ [c_dquote] ++ lit "wine run.exe ; xrandr -s 0" ++ [c_dquote].
Proof.
  rewrite (proj1 (proj2 (proj2 (commandLine_sh_wrapping Sample.home Sample.launcher))));
    reflexivity.
Defined.

(** The example of the specification, with the square root rounded to
    nearest for the power: of two images at distance 32 from 64 the deeper
    is taken. *)
Example selectBest_example :
  selectBest Sample.pow_half Sample.complex_pow_half Sample.hypot 64
    [Image 0 32 32 32; Image 1 16 16 8; Image 2 32 32 8]
  = inr (Image 0 32 32 32).
Proof. vm_compute. reflexivity. Qed.

(** Two images at distance 16 from 64 under the square root rounded to
    nearest: the first is returned, the second is deeper. *)
Example selectBest_first_of_equal_distance :
  selectBest Sample.pow_half Sample.complex_pow_half Sample.hypot ICON_SIZE
    [Image 0 48 48 8; Image 1 80 80 32]
  = inr (Image 0 48 48 8).
Proof. vm_compute. reflexivity. Qed.

(** A negative area has a complex root: with the sample functions the key
    of [-4] is above the key of [16390], and the second image is taken. *)
Example selectBest_negative_area :
  selectBest Sample.pow_half Sample.complex_pow_half Sample.hypot ICON_SIZE
    [Image 0 (-4) 1 8; Image 1 16390 1 8]
  = inr (Image 1 16390 1 8).
Proof. vm_compute. reflexivity. Qed.

(** C2, as the specification words it, fails: a tab comes back as a
    backslash followed by the letter [t], not as the bare letter. *)
Lemma escape_tab_keeps_backslash :
  ~ (forall (text : str) (allow : bool),
        (exists c, In c text /\ (is_sq_illegal c = true \/ is_reserved c = true)) ->
        (allow = false \/ exists c, In c text /\ is_sq_illegal c = true) ->
        escape text allow
        = [c_dquote] ++ flat_map dq_escape_char_as_claimed text ++ [c_dquote]).
Proof.
  intros H. specialize (H [c_tab] false).
  assert (E : escape [c_tab] false = [c_dquote; c_backslash; 116%N; c_dquote])
    by reflexivity.
  rewrite E in H. discriminate H.
  - exists c_tab. split; [now left|left; reflexivity].
  - now left.
Qed.

Lemma escape_double_quotes_witness :
  escape [c_tab] false = [c_dquote; c_backslash; 116%N; c_dquote].
Proof.
  apply (proj1 escape_double_quotes [c_tab] false).
  - exists c_tab. split; [now left|left; reflexivity].
  - now left.
Defined.

Lemma escape_single_quote_inside_witness :
  escape (lit "it's") true
  = [c_dquote] ++ flat_map dq_escape_char (lit "it's") ++ [c_dquote].
Proof.
  apply (proj1 escape_single_quote_inside (lit "it's")).
  right; right; left; reflexivity.
Defined.

Lemma escape_empty_witness : escape [] true = [] /\ escape [] false = [].
Proof.
  split; apply (proj1 escape_empty).
Defined.

Lemma buildThemeTree_witness :
  exists h' : history,
    buildThemeTree Sample.home Sample.temporary Sample.upper_nonascii Sample.oracle
      Sample.images (lit "/tmp/a.ico")
      (iconDestination Sample.lower_nonascii Sample.isalnum_nonascii Sample.nfkd
         Sample.combining (lit "My Game"))
      []
    = (inr tt, h').
Proof.
  apply (proj2 (proj2 (proj2 (proj2
    (buildThemeTree_one_file_per_size Sample.home Sample.temporary
       Sample.upper_nonascii Sample.lower_nonascii Sample.isalnum_nonascii
       Sample.nfkd Sample.combining Sample.oracle
       Sample.images (lit "/tmp/a.ico") (lit "My Game")))))).
  intros h c. destruct c; reflexivity.
Defined.

Lemma iconImages_never_empty_witness :
  iconImages Sample.int_of_bytes Sample.failing_oracle (lit "/tmp/a.ico") []
  = (inl CalledProcessError, [IcotoolList (lit "/tmp/a.ico")])
  /\ Sample.images <> [].
Proof.
  split.
  - apply (proj1 (iconImages_never_empty Sample.int_of_bytes Sample.failing_oracle)).
    discriminate.
  - apply (proj2 (proj2 (proj2 (proj2 (proj2 (proj2 (proj2
      (iconImages_never_empty Sample.int_of_bytes Sample.oracle)))))))
      (lit "/tmp/a.ico") [] [IcotoolList (lit "/tmp/a.ico")]).
    reflexivity.
Defined.

Lemma iconExtract_same_path_witness :
  lit "/tmp/wlc/a_1_32x32x8.png" = lit "/tmp/wlc/a_1_32x32x8.png"
  /\ lit "/tmp/wlc/a_1_32x32x8.png"
     = iconExtract_path Sample.upper_nonascii (lit "/tmp/a.ico") (Image 1 32 32 8)
         Sample.temporary.
Proof.
  apply (proj1 (iconExtract_same_path Sample.upper_nonascii Sample.oracle
                  (lit "/tmp/a.ico") (Image 1 32 32 8) Sample.temporary)
           [] [XdgIconResourceForceupdate]
           [IcotoolExtract 1 (lit "/tmp/a.ico") Sample.temporary]
           [XdgIconResourceForceupdate;
            IcotoolExtract 1 (lit "/tmp/a.ico") Sample.temporary]);
    reflexivity.
Defined.

Lemma iconExtract_path_suffix_witness :
  iconExtract_path Sample.upper_nonascii (lit "/tmp/x/Foo.IcO") (Image 1 32 32 8)
    Sample.temporary
  = lit "/tmp/wlc/Foo_1_32x32x8.png".
Proof.
  rewrite (proj1 (iconExtract_path_suffix Sample.upper_nonascii (lit "/tmp/x/Foo.IcO")
                    (Image 1 32 32 8) Sample.temporary)); reflexivity.
Defined.

Lemma normalize_name_chars_witness :
  normalize_char Sample.lower_nonascii Sample.isalnum_nonascii 71%N = [103%N].
Proof.
  apply (proj1 (proj2 (normalize_name_chars Sample.lower_nonascii
                         Sample.isalnum_nonascii Sample.nfkd Sample.combining [])));
    reflexivity.
Defined.

(** The name of the theme icon of a launcher called [My Game_1.0 (x)]. *)
Example iconDestination_example :
  iconDestination Sample.lower_nonascii Sample.isalnum_nonascii Sample.nfkd
    Sample.combining (lit "My Game_1.0 (x)")
  = lit "wlcreator-my-game_1.0--x-".
Proof. reflexivity. Qed.

(** * Instances of the further properties *)

(** The sample [int] reads back every decimal number. *)
Lemma sample_int_of_decimal (n : Z) : Sample.int_of_bytes (Py.str_of_int n) = Some n.
Proof.
  unfold Sample.int_of_bytes, Py.str_of_int, lit.
  rewrite map_map.
  rewrite (map_ext _ (fun a => a)) by (intros a; apply ascii_N_embedding).
  rewrite map_id, string_of_list_ascii_of_string.
  assert (Hn : Z.to_int n <> Decimal.Pos Decimal.Nil
               /\ Z.to_int n <> Decimal.Neg Decimal.Nil).
  { destruct n as [|p|p]; cbn; split; try discriminate;
      intros [= E]; pose proof (DecimalPos.Unsigned.of_to p) as Ep;
      rewrite E in Ep; discriminate Ep. }
  rewrite (NilZero.isi _ (proj1 Hn) (proj2 Hn)). cbn [option_map].
  now rewrite DecimalZ.of_to.
Qed.

Lemma escape_injective_witness : lit "run.exe" = lit "run.exe".
Proof.
  apply (escape_injective (lit "run.exe") (lit "run.exe") true false).
  reflexivity.
Defined.

Lemma commandLine_one_line_witness : one_line (commandLine Sample.home Sample.launcher).
Proof.
  apply (proj1 (commandLine_one_line Sample.home Sample.launcher)).
  reflexivity.
Defined.

Lemma relative_exe_cases_witness :
  relative_exe (lit "/games/My Game/run.exe") = lit "run.exe".
Proof.
  apply (proj1 (proj2 relative_exe_cases) (lit "/games/My Gam") (lit "run.exe") 101%N).
  - discriminate.
  - cbn. intros H. repeat (destruct H as [H|H]; [discriminate H|]). exact H.
Defined.

Lemma extractIcoFile_cases_witness :
  exists best : image, In best Sample.images /\ INDEX best = 3.
Proof.
  destruct (extractIcoFile_cases Sample.temporary Sample.upper_nonascii
              Sample.int_of_bytes Sample.oracle Sample.pow_half
              Sample.complex_pow_half Sample.hypot (lit "/tmp/a.ico") []
              [IcotoolList (lit "/tmp/a.ico");
               IcotoolExtract 3 (lit "/tmp/a.ico") Sample.temporary]
              (inr (lit "/tmp/wlc/a_3_32x32x32.png")) eq_refl)
    as [(e & _ & E & _)
       |(images & Ei & _ & [(_ & _ & E & _)|(best & _ & _ & Hin & Hh & _)])].
  - discriminate E.
  - discriminate E.
  - exists best. vm_compute in Ei. injection Ei as <-.
    split; [exact Hin|]. now injection Hh.
Defined.

Lemma scored_in_range_witness :
  scored Sample.pow_half Sample.complex_pow_half Sample.hypot 64 (Image 0 256 256 32).
Proof.
  apply scored_in_range.
  - cbn [WIDTH HEIGHT]. split; [lia|]. apply Z.ltb_lt. vm_compute. reflexivity.
  - apply Z.ltb_lt. vm_compute. reflexivity.
Defined.

Lemma buildThemeTree_stops_at_failure_witness :
  exists c : call, raised_by c = OSError.
Proof.
  destruct (buildThemeTree_stops_at_failure Sample.home Sample.temporary
              Sample.upper_nonascii Sample.failing_oracle Sample.images
              (lit "/tmp/a.ico") (lit "wlcreator-game") []
              [Makedirs (iconPath Sample.home (Image 2 16 16 8))]
              (inl OSError) eq_refl)
    as [(E & _)|(before & c & rest & _ & _ & _ & E)].
  - discriminate E.
  - exists c. now injection E.
Defined.

Lemma createLauncher_icon_cases_witness :
  createLauncher_icon Sample.home Sample.temporary Sample.upper_nonascii
    Sample.lower_nonascii Sample.isalnum_nonascii Sample.nfkd Sample.combining
    Sample.int_of_bytes Sample.oracle (lit "/usr/share/icons/game.png") (lit "Game") []
  = (inr (lit "/usr/share/icons/game.png"), []).
Proof.
  apply (proj1 (createLauncher_icon_cases Sample.home Sample.temporary
                  Sample.upper_nonascii Sample.lower_nonascii
                  Sample.isalnum_nonascii Sample.nfkd Sample.combining
                  Sample.int_of_bytes Sample.oracle
                  (lit "/usr/share/icons/game.png") (lit "Game") [])).
  reflexivity.
Defined.

Lemma findall_tokens_witness :
  Re.findall (lit "--icon --index=1")
  = [(lit "icon", []); (lit "index", lit "1")].
Proof.
  apply (findall_tokens [(lit "icon", None); (lit "index", Some (Py.str_of_int 1))]).
  repeat (apply List.Forall_cons;
            [first [now apply decimal_token_ok | now apply flag_token_ok]|]).
  apply List.Forall_nil.
Defined.

Lemma images_of_rendered_listing_witness :
  images_of_listing Sample.int_of_bytes
    (render_listing [(Image 1 32 32 8, 256); (Image 2 16 16 8, 256)])
  = inr [Image 1 32 32 8; Image 2 16 16 8].
Proof.
  apply (images_of_rendered_listing Sample.int_of_bytes
           [(Image 1 32 32 8, 256); (Image 2 16 16 8, 256)]).
  - exact sample_int_of_decimal.
  - discriminate.
Defined.

Lemma desktopPath_of_cases_witness :
  desktopPath_of (lit "/home/u/Desktop" ++ [c_nl]) = Exited (lit "/home/u/Desktop").
Proof.
  apply (proj1 desktopPath_of_cases (lit "/home/u/Deskto") 112%N 1%nat).
  discriminate.
Defined.

Lemma writeLauncher_mode_bits_witness : Z.land (writeLauncher_mode false 18) 73 = 0.
Proof.
  apply (proj1 (proj2 (proj2 (proj2 (writeLauncher_mode_bits false 18))))).
  reflexivity.
Defined.

Lemma icon_title_of_resource_witness :
  icon_title (lit "/games/prog.exe") (lit "/tmp/wlc/prog.exe_14_101_1033.ico")
  = lit "101_1033".
Proof.
  apply (icon_title_of_resource (lit "/games/prog.exe") (lit "/tmp/wlc")
           (lit "_14_") (lit "101_1033") (lit ".ico"));
    try reflexivity;
    cbn; intros H; repeat (destruct H as [H|H]; [discriminate H|]); exact H.
Defined.

Lemma createLauncher_iconSource_cases_witness :
  exists iconSource,
    createLauncher_iconSource Sample.temporary Sample.upper_nonascii
      (lit "/games/prog.exe") [lit "101_1033"] = Some iconSource
    /\ iconSource = PosixPath.join Sample.temporary [lit "101_1033" ++ lit ".ico"]
    /\ Py.str_eqb (getSuffix Sample.upper_nonascii iconSource) (lit ".ICO") = true.
Proof.
  apply (proj1 (createLauncher_iconSource_cases Sample.temporary Sample.upper_nonascii
                  (lit "/games/prog.exe") [lit "101_1033"])
           eq_refl (lit "101_1033") [] eq_refl).
Defined.

Lemma multiIconFile_suffix_witness :
  multiIconFile (getSuffix Sample.upper_nonascii (lit "/games/Prog.ExE")) = true.
Proof.
  apply (proj1 (multiIconFile_suffix Sample.upper_nonascii (lit "/games/Prog.ExE"))).
  - repeat constructor.
  - left. reflexivity.
Defined.

Lemma launcherText_split_witness :
  Py.split c_nl
    (launcherText Sample.home Sample.launcher true (lit "My Game")
       (lit "wlcreator-my-game") [lit "Game"; lit "Utility"])
  = launcher_lines Sample.home Sample.launcher true (lit "My Game")
      (lit "wlcreator-my-game") [lit "Game"; lit "Utility"] ++ [[]].
Proof.
  apply (launcherText_split Sample.home Sample.launcher true (lit "My Game")
           (lit "wlcreator-my-game") [lit "Game"; lit "Utility"]);
    try (cbn; intros H; repeat (destruct H as [H|H]; [discriminate H|]); exact H).
  split; vm_compute; intros H;
    repeat (destruct H as [H|H]; [discriminate H|]); exact H.
Defined.
